(** * Decline-curve forecast engine of [cases_trial.py]

    Shallow embedding of the forecast part of [src/cases_trial.py]:
    [arps_rate], [make_profile], [eur_from_profile], [insert_cases] and the
    aggregation done by [forecast_outputs] / [_render_plots].

    Numeric columns (numpy float64 in the source) are modelled by the
    Stdlib real numbers [R]; rounding of floating point is abstracted away.
    Calendar dates are modelled as day numbers in [Z]; a daily
    [pd.date_range] is the list of consecutive day numbers. *)

From Stdlib Require Import Reals Lra ZArith Lia List String Ascii Bool Sorted.
Import ListNotations.
Open Scope R_scope.

(* ------------------------------------------------------------------ *)
(** ** Decline curve models *)

(** [arps_rate t qi di b]:
<<
    if b == 0:
        return qi * np.exp(-di * t)
    return qi / ((1 + b * di * t) ** (1 / b))
>>
    The float power [x ** y] for a positive base is [Rpower x y]. *)
Definition arps_rate (t qi di b : R) : R :=
  if Req_dec_T b 0 then qi * exp (- di * t)
  else qi / Rpower (1 + b * di * t) (1 / b).

(** Vectorised use: numpy applies [arps_rate] element-wise. *)
Definition arps_rates (ts : list R) (qi di b : R) : list R :=
  map (fun t => arps_rate t qi di b) ts.

(* ------------------------------------------------------------------ *)
(** ** Profiles *)

Definition date := Z.

(** A row of the DataFrame returned by [make_profile]: columns
    [Date], [rate], [cum]. *)
Record prow := mk_prow { p_date : date; p_rate : R; p_cum : R }.

Definition profile := list prow.

(** [pd.date_range(start, end, freq="D")]: every day from [start] to [end]
    inclusive; empty when [end < start]. *)
Fixpoint days_from (d : date) (n : nat) : list date :=
  match n with
  | O => []
  | S k => d :: days_from (d + 1)%Z k
  end.

Definition date_range (start_date end_date : date) : list date :=
  days_from start_date (Z.to_nat (end_date - start_date + 1)).

(** [rates[rates < q_abnd] = np.nan] followed by [.dropna()]: a sample is
    dropped exactly when its rate is below [q_abnd]. (A NaN rate, which only
    parameters outside [qi, di, b >= 0] can produce, has no counterpart in
    [R].) *)
Definition below (q_abnd r : R) : bool :=
  if Rlt_dec r q_abnd then true else false.

Definition drop_abandoned (q_abnd : R) (samples : list (date * R))
  : list (date * R) :=
  filter (fun s => negb (below q_abnd (snd s))) samples.

(** [df["cum"] = df["rate"].cumsum()] *)
Fixpoint cumsum_from (acc : R) (samples : list (date * R)) : profile :=
  match samples with
  | [] => []
  | (d, r) :: rest => mk_prow d r (acc + r) :: cumsum_from (acc + r) rest
  end.

(** The samples [(Date, rate)] before the abandonment filter:
    [t_days = (dates - start_date).days], [rates = arps_rate(t_days, ...)]. *)
Definition raw_samples (start_date end_date : date) (qi di b : R)
  : list (date * R) :=
  map (fun d => (d, arps_rate (IZR (d - start_date)) qi di b))
      (date_range start_date end_date).

Definition make_profile (start_date end_date : date) (qi di b q_abnd : R)
  : profile :=
  cumsum_from 0 (drop_abandoned q_abnd (raw_samples start_date end_date qi di b)).

(** [np.trapz(y, dx=1)] = [(d * (y[1:] + y[:-1]) / 2.0).sum()]. *)
Fixpoint trapz (ys : list R) : R :=
  match ys with
  | y0 :: ((y1 :: _) as rest) => 1 * (y0 + y1) / 2 + trapz rest
  | _ => 0
  end.

(** [eur_from_profile]:
<<
    if df.empty: return 0.0
    return float(np.trapz(df["rate"].values, dx=1))
>> *)
Definition eur_from_profile (df : profile) : R :=
  match df with
  | [] => 0
  | _ => trapz (map p_rate df)
  end.

(* ------------------------------------------------------------------ *)
(** ** Rounding: Python's [round(x, 2)] on the EUR column *)

(** Nearest integer, ties to even (Python's [round]). [Int_part] is the
    floor. *)
Definition round_half_even (y : R) : Z :=
  let f := Int_part y in
  let fr := y - IZR f in
  if Rlt_dec fr (1 / 2) then f
  else if Rlt_dec (1 / 2) fr then (f + 1)%Z
  else if Z.even f then f else (f + 1)%Z.

Definition round2 (x : R) : R := IZR (round_half_even (x * 100)) / 100.

(* ------------------------------------------------------------------ *)
(** ** Forecast cases and the aggregation of [forecast_outputs] *)

(** A row of [forecast_cases] as loaded by [load_cases]. *)
Record fcase := mk_fcase {
  well_name : string;
  case_label : string;
  eff_date : date;
  qi : R;
  di : R;
  b : R
}.

(** [prof = make_profile(r["eff_date"], end_date, r.qi, r.di, r.b, q_abnd)] *)
Definition case_profile (end_date : date) (q_abnd : R) (c : fcase) : profile :=
  make_profile (eff_date c) end_date (qi c) (di c) (b c) q_abnd.

(** [df_sel = cases_df[cases_df["case_label"] == lbl]] *)
Definition label_cases (cases : list fcase) (lbl : string) : list fcase :=
  filter (fun c => String.eqb (case_label c) lbl) cases.

(** [groupby("Date", as_index=False)["rate"].sum()]: one row per distinct
    date, dates in increasing order, the rate of a date being the sum of the
    rates of all rows carrying that date. *)
Fixpoint insert_date (d : date) (ds : list date) : list date :=
  match ds with
  | [] => [d]
  | x :: rest =>
      if Z.eqb d x then ds
      else if Z.ltb d x then d :: ds
      else x :: insert_date d rest
  end.

Definition group_keys (rows : list (date * R)) : list date :=
  fold_right insert_date [] (map fst rows).

Definition sum_at (d : date) (rows : list (date * R)) : R :=
  fold_right (fun (row : date * R) acc =>
                if Z.eqb (fst row) d then snd row + acc else acc)
             0 rows.

Definition groupby_date_sum (rows : list (date * R)) : list (date * R) :=
  map (fun d => (d, sum_at d rows)) (group_keys rows).

(** Output rows. *)
Record eur_row := mk_eur_row {
  e_well : string; e_case : string; e_eff_date : date; e_eur : R }.

Record raw_row := mk_raw_row {
  r_date : date; r_rate : R; r_cum : R; r_label : string; r_well : string }.

Record sum_row := mk_sum_row {
  s_date : date; s_rate : R; s_label : string; s_well : string }.

Definition rate_samples (p : profile) : list (date * R) :=
  map (fun r => (p_date r, p_rate r)) p.

(** The concatenated [(Date, rate)] rows of all profiles of one label. *)
Definition label_samples (cases : list fcase) (lbl : string)
    (end_date : date) (q_abnd : R) : list (date * R) :=
  flat_map (fun c => rate_samples (case_profile end_date q_abnd c))
           (label_cases cases lbl).

(** [df_grp] before its two constant columns are attached. *)
Definition label_series (cases : list fcase) (lbl : string)
    (end_date : date) (q_abnd : R) : list (date * R) :=
  groupby_date_sum (label_samples cases lbl end_date q_abnd).

(** The body of [for lbl in labels:] in [forecast_outputs]. [None] when
    [df_sel] is empty: [df_sel["well_name"].iloc[0]] raises [IndexError].
    Otherwise [raw_profiles[-len(df_sel):]] are exactly the profiles of the
    rows of [df_sel], in order. *)
Definition label_block (cases : list fcase) (end_date : date) (q_abnd : R)
    (lbl : string) : option (list eur_row * list raw_row * list sum_row) :=
  match label_cases cases lbl with
  | [] => None
  | c0 :: _ =>
      let sel := label_cases cases lbl in
      Some (map (fun c => mk_eur_row (well_name c) lbl (eff_date c)
                    (round2 (eur_from_profile (case_profile end_date q_abnd c))))
                sel,
            flat_map (fun c => map (fun r => mk_raw_row (p_date r) (p_rate r)
                                       (p_cum r) lbl (well_name c))
                                   (case_profile end_date q_abnd c))
                     sel,
            map (fun dr => mk_sum_row (fst dr) (snd dr) lbl (well_name c0))
                (label_series cases lbl end_date q_abnd))
  end.

Fixpoint label_blocks (cases : list fcase) (end_date : date) (q_abnd : R)
    (labels : list string) : option (list eur_row * list raw_row * list sum_row) :=
  match labels with
  | [] => Some ([], [], [])
  | lbl :: rest =>
      match label_block cases end_date q_abnd lbl,
            label_blocks cases end_date q_abnd rest with
      | Some (e1, r1, s1), Some (e2, r2, s2) => Some (e1 ++ e2, r1 ++ r2, s1 ++ s2)
      | _, _ => None
      end
  end.

(** [eur_df.groupby("Case", as_index=False)["EUR"].sum()]: distinct case
    labels in increasing string order, each with the sum of its EURs. *)
Fixpoint insert_label (l : string) (ls : list string) : list string :=
  match ls with
  | [] => [l]
  | x :: rest =>
      if String.eqb l x then ls
      else if String.ltb l x then l :: ls
      else x :: insert_label l rest
  end.

Definition eur_total (lbl : string) (rows : list eur_row) : R :=
  fold_right (fun e acc => if String.eqb (e_case e) lbl then e_eur e + acc else acc)
             0 rows.

Definition total_eur (rows : list eur_row) : list (string * R) :=
  map (fun l => (l, eur_total l rows))
      (fold_right insert_label [] (map e_case rows)).

(** [_render_plots]: [sum_df["cum"] = sum_df.groupby("case_label")["rate"].cumsum()],
    a running sum per label in the order of the rows of [sum_df]. *)
Fixpoint seen_total (l : string) (seen : list (string * R)) : R :=
  match seen with
  | [] => 0
  | (l', v) :: rest => if String.eqb l l' then v else seen_total l rest
  end.

Fixpoint group_cumsum_from (seen : list (string * R)) (rows : list sum_row)
  : list (sum_row * R) :=
  match rows with
  | [] => []
  | s :: rest =>
      let c := seen_total (s_label s) seen + s_rate s in
      (s, c) :: group_cumsum_from ((s_label s, c) :: seen) rest
  end.

Definition group_cumsum (rows : list sum_row) : list (sum_row * R) :=
  group_cumsum_from [] rows.

(** Everything [forecast_outputs] computes and hands to the page:
    the per-well EUR table, the per-case total EUR table, the summed series
    with its cumulative column (as completed by [_render_plots]) and the raw
    per-well profiles. *)
Record outputs := mk_outputs {
  per_well_eur : list eur_row;
  per_case_total : list (string * R);
  summed_series : list (sum_row * R);
  raw_series : list raw_row
}.

Inductive outcome :=
| NoSelection            (** [st.warning]; nothing else rendered *)
| Raised                 (** an exception escapes [forecast_outputs] *)
| Rendered (o : outputs).

(** The index and column of a summed row in
    [sum_df.pivot(index="Date", columns="case_label", ...)]. *)
Definition pivot_key (s : sum_row) : date * string := (s_date s, s_label s).

Definition key_eqb (k1 k2 : date * string) : bool :=
  Z.eqb (fst k1) (fst k2) && String.eqb (snd k1) (snd k2).

(** [pivot] raises [ValueError] ("Index contains duplicate entries") unless
    the (index, column) pairs are pairwise distinct. *)
Fixpoint keys_distinct (ks : list (date * string)) : bool :=
  match ks with
  | [] => true
  | k :: rest => negb (existsb (key_eqb k) rest) && keys_distinct rest
  end.

(** [forecast_outputs] followed by [_render_plots]: no selection only
    warns; an empty [df_sel] raises at [iloc[0]]; otherwise the tables and
    the line charts are built, and the stacked area charts [pivot] the
    summed series, which raises on a repeated (Date, case_label) pair. *)
Definition forecast_outputs (cases : list fcase) (labels : list string)
    (end_date : date) (q_abnd : R) : outcome :=
  match labels with
  | [] => NoSelection
  | _ =>
      match label_blocks cases end_date q_abnd labels with
      | None => Raised
      | Some (eurs, raws, sums) =>
          if keys_distinct (map pivot_key sums)
          then Rendered (mk_outputs eurs (total_eur eurs) (group_cumsum sums) raws)
          else Raised
      end
  end.

(* ------------------------------------------------------------------ *)
(** ** Case insertion: [insert_cases] *)

(** A Python [str] as its sequence of code points. *)
Definition ustr : Type := list N.

(** A string literal of ASCII characters as a [ustr]. *)
Definition ustr_of (s : string) : ustr := map N_of_ascii (list_ascii_of_string s).

(** A row of the edited table: every cell may be empty ([None]/NaN). *)
Record entry := mk_entry {
  en_well_name : option ustr;
  en_case_label : option ustr;
  en_eff_date : option date;
  en_qi : option R;
  en_di : option R;
  en_b : option R
}.

(** The parameters of [INSERT INTO forecast_cases (...) VALUES (?, ...)]. *)
Definition db_tuple : Type := (ustr * ustr * date * R * R * R)%type.

(** A row that survived [dropna(subset=[...])]: every cell present. *)
Definition full_row : Type := db_tuple.

(** [cases_df.dropna(subset=["well_name", "case_label", "eff_date", "qi",
    "di", "b"])] *)
Fixpoint dropna_required (rows : list entry) : list full_row :=
  match rows with
  | [] => []
  | e :: rest =>
      match en_well_name e, en_case_label e, en_eff_date e,
            en_qi e, en_di e, en_b e with
      | Some w, Some l, Some d, Some q, Some dd, Some bb =>
          (w, l, d, q, dd, bb) :: dropna_required rest
      | _, _, _, _, _, _ => dropna_required rest
      end
  end.

(** Python's [str.isspace] on one code point: the characters of
    bidirectional class WS, B or S or of category Zs, namely U+0009..U+000D,
    U+001C..U+0020, U+0085, U+00A0, U+1680, U+2000..U+200A, U+2028,
    U+2029, U+202F, U+205F and U+3000. *)
Definition is_space (c : N) : bool :=
  (N.leb 9 c && N.leb c 13) || (N.leb 28 c && N.leb c 32) ||
  N.eqb c 133 || N.eqb c 160 || N.eqb c 5760 ||
  (N.leb 8192 c && N.leb c 8202) || N.eqb c 8232 || N.eqb c 8233 ||
  N.eqb c 8239 || N.eqb c 8287 || N.eqb c 12288.

Fixpoint lstrip_chars (s : ustr) : ustr :=
  match s with
  | [] => []
  | a :: rest => if is_space a then lstrip_chars rest else s
  end.

(** [str.strip()] *)
Definition strip (s : ustr) : ustr := rev (lstrip_chars (rev (lstrip_chars s))).

(** [not s] on a string. *)
Definition is_empty (s : ustr) : bool :=
  match s with [] => true | _ => false end.

(** What [conn.commit()] does: it commits, or raises
    [sqlite3.ProgrammingError] (caught and ignored), or raises another
    exception (such as [sqlite3.OperationalError]), which escapes. *)
Inductive commit_result := Committed | CommitProgrammingError | CommitRaises.

(** The end of [insert_cases]: the count is returned, or an exception
    escapes from [conn.commit()]. Both carry the table left by the
    [INSERT]s and the [st.error] reports, in order. *)
Inductive insert_outcome (db_error : Type) :=
| InsertDone (table : list db_tuple) (count : nat) (reported : list db_error)
| InsertRaised (table : list db_tuple) (reported : list db_error).
Arguments InsertDone {db_error}.
Arguments InsertRaised {db_error}.

Section Insert.

(** The errors [conn.execute] may raise (subclasses of [sqlite3.Error]). *)
Variable db_error : Type.

(** [conn.execute(insert_sql, t)] on a table holding [table]: [None] when
    the row is inserted, [Some e] when it raises [e] (a constraint of the
    schema, a locked or closed database, ...). The schema of
    [forecast_cases] is not part of the repository, so this is a
    parameter; it may depend on the rows already in the table. A failed
    statement leaves the table as it was. *)
Variable execute : list db_tuple -> db_tuple -> option db_error.

(** [conn.commit()] on the table reached. *)
Variable commit : list db_tuple -> commit_result.

(** The [for _, row in cases_df.iterrows():] loop: the table is threaded
    through, [count] counts successful inserts, [reported] collects the
    errors shown with [st.error]. *)
Fixpoint insert_loop (rows : list full_row) (table : list db_tuple) (count : nat)
    (reported : list db_error) : list db_tuple * nat * list db_error :=
  match rows with
  | [] => (table, count, reported)
  | (w, l, d, q, dd, bb) :: rest =>
      let name := strip w in
      let label := strip l in
      if is_empty name || is_empty label then insert_loop rest table count reported
      else
        let t := (name, label, d, q, dd, bb) in
        match execute table t with
        | None => insert_loop rest (table ++ [t]) (S count) reported
        | Some e => insert_loop rest table count (reported ++ [e])
        end
  end.

(** [insert_cases(conn, cases_df)]: the loop, then [conn.commit()]. *)
Definition insert_cases (table : list db_tuple) (cases_df : list entry)
  : insert_outcome db_error :=
  match insert_loop (dropna_required cases_df) table 0 [] with
  | (table', count, reported) =>
      match commit table' with
      | Committed | CommitProgrammingError => InsertDone table' count reported
      | CommitRaises => InsertRaised table' reported
      end
  end.

End Insert.

(* ------------------------------------------------------------------ *)
(** ** Auxiliary definitions used in statements *)

Fixpoint sumR (xs : list R) : R :=
  match xs with
  | [] => 0
  | x :: rest => x + sumR rest
  end.

(** Second reading of the abandonment rule, from the spec's design note:
    stop at the first sample whose rate falls below the threshold. *)
Fixpoint stop_at_first_breach (q_abnd : R) (samples : list (date * R))
  : list (date * R) :=
  match samples with
  | [] => []
  | (d, r) :: rest =>
      if below q_abnd r then [] else (d, r) :: stop_at_first_breach q_abnd rest
  end.

Definition make_profile_truncating (start_date end_date : date)
    (qi di b q_abnd : R) : profile :=
  cumsum_from 0
    (stop_at_first_breach q_abnd (raw_samples start_date end_date qi di b)).

(** Rates along a list of samples never increase. *)
Fixpoint nonincreasing (samples : list (date * R)) : Prop :=
  match samples with
  | x :: ((y :: _) as rest) => snd y <= snd x /\ nonincreasing rest
  | _ => True
  end.

(** The rate of a profile on a day, 0 when the profile has no row then. *)
Definition rate_on (d : date) (p : profile) : R :=
  match find (fun r => Z.eqb (p_date r) d) p with
  | Some r => p_rate r
  | None => 0
  end.

(** Running sum of a list of rates. *)
Fixpoint running_sum (acc : R) (xs : list R) : list R :=
  match xs with
  | [] => []
  | x :: rest => (acc + x) :: running_sum (acc + x) rest
  end.

(* ------------------------------------------------------------------ *)
(** ** Lemmas on the decline curve *)

Lemma Rpower_1_base (y : R) : Rpower 1 y = 1.
Proof. unfold Rpower. rewrite ln_1, Rmult_0_r. apply exp_0. Qed.

Lemma hyperbolic_base_pos (t di b : R) :
  0 <= t -> 0 <= di -> 0 <= b -> 0 < 1 + b * di * t.
Proof.
  intros Ht Hd Hb.
  assert (0 <= b * di * t) by (apply Rmult_le_pos; [apply Rmult_le_pos|]; lra).
  lra.
Qed.

Lemma Rpower_base_le (x y c : R) : 0 < x -> x <= y -> 0 <= c ->
  Rpower x c <= Rpower y c.
Proof. intros. apply Rle_Rpower_l; [assumption | split; assumption]. Qed.

Lemma Rpower_base_lt (x y c : R) : 0 < x -> x < y -> 0 < c ->
  Rpower x c < Rpower y c.
Proof.
  intros Hx Hxy Hc. unfold Rpower. apply exp_increasing.
  apply Rmult_lt_compat_l; [assumption|]. apply ln_increasing; assumption.
Qed.

Lemma Rpower_pos (x c : R) : 0 < Rpower x c.
Proof. unfold Rpower. apply exp_pos. Qed.

Lemma exp_le_mono (x y : R) : x <= y -> exp x <= exp y.
Proof.
  intros [H|H]; [left; apply exp_increasing; assumption | right; subst; reflexivity].
Qed.

Lemma arps_rate_antitone (qi di b t1 t2 : R) :
  0 <= qi -> 0 <= di -> 0 <= b -> 0 <= t1 -> t1 <= t2 ->
  arps_rate t2 qi di b <= arps_rate t1 qi di b.
Proof.
  intros Hq Hd Hb Ht1 Ht12. unfold arps_rate.
  destruct (Req_dec_T b 0) as [Hb0|Hb0].
  - apply Rmult_le_compat_l; [assumption|]. apply exp_le_mono. nra.
  - assert (Hbp : 0 < b) by lra.
    pose proof (hyperbolic_base_pos t1 di b Ht1 Hd Hb) as P1.
    assert (P12 : 1 + b * di * t1 <= 1 + b * di * t2).
    { assert (0 <= b * di) by (apply Rmult_le_pos; lra). nra. }
    assert (Hc : 0 <= 1 / b) by (unfold Rdiv; rewrite Rmult_1_l; left; apply Rinv_0_lt_compat; lra).
    pose proof (Rpower_base_le _ _ (1 / b) P1 P12 Hc) as HP.
    pose proof (Rpower_pos (1 + b * di * t1) (1 / b)) as Q1.
    unfold Rdiv. apply Rmult_le_compat_l; [assumption|].
    apply Rinv_le_contravar; assumption.
Qed.

Lemma arps_rate_strict (qi di b t1 t2 : R) :
  0 < qi -> 0 < di -> 0 <= b -> 0 <= t1 -> t1 < t2 ->
  arps_rate t2 qi di b < arps_rate t1 qi di b.
Proof.
  intros Hq Hd Hb Ht1 Ht12. unfold arps_rate.
  destruct (Req_dec_T b 0) as [Hb0|Hb0].
  - apply Rmult_lt_compat_l; [assumption|]. apply exp_increasing. nra.
  - assert (Hbp : 0 < b) by lra.
    pose proof (hyperbolic_base_pos t1 di b Ht1 (Rlt_le _ _ Hd) Hb) as P1.
    assert (P12 : 1 + b * di * t1 < 1 + b * di * t2).
    { assert (0 < b * di) by (apply Rmult_lt_0_compat; lra). nra. }
    assert (Hc : 0 < 1 / b) by (unfold Rdiv; rewrite Rmult_1_l; apply Rinv_0_lt_compat; lra).
    pose proof (Rpower_base_lt _ _ (1 / b) P1 P12 Hc) as HP.
    pose proof (Rpower_pos (1 + b * di * t1) (1 / b)) as Q1.
    unfold Rdiv. apply Rmult_lt_compat_l; [assumption|].
    apply Rinv_lt_contravar; [apply Rmult_lt_0_compat; apply Rpower_pos | assumption].
Qed.

(* ------------------------------------------------------------------ *)
(** ** Lemmas on profiles *)

Lemma below_true (q r : R) : below q r = true <-> r < q.
Proof. unfold below. destruct (Rlt_dec r q); split; intros; auto; discriminate. Qed.

Lemma below_false (q r : R) : below q r = false <-> q <= r.
Proof.
  unfold below. destruct (Rlt_dec r q); split; intros; try lra; try discriminate; auto.
Qed.

Lemma rate_samples_cumsum (acc : R) (l : list (date * R)) :
  rate_samples (cumsum_from acc l) = l.
Proof.
  revert acc. induction l as [|[d r] l IH]; intros acc; simpl; [reflexivity|].
  rewrite IH. reflexivity.
Qed.

Lemma cumsum_nth (acc : R) (l : list (date * R)) (k : nat) (row : prow) :
  nth_error (cumsum_from acc l) k = Some row ->
  p_cum row = acc + sumR (firstn (S k) (map snd l)).
Proof.
  revert acc k. induction l as [|[d r] l IH]; intros acc k H.
  - destruct k; discriminate.
  - destruct k as [|k]; simpl in H.
    + injection H as <-. simpl. lra.
    + apply IH in H. rewrite H. simpl. lra.
Qed.

Lemma rates_of_profile (p : profile) : map p_rate p = map snd (rate_samples p).
Proof. unfold rate_samples. rewrite map_map. reflexivity. Qed.

Lemma make_profile_samples (s e : date) (qi di b q : R) :
  rate_samples (make_profile s e qi di b q) = drop_abandoned q (raw_samples s e qi di b).
Proof. unfold make_profile. apply rate_samples_cumsum. Qed.

Lemma In_days_from (d : date) (n : nat) (x : date) :
  In x (days_from d n) <-> (d <= x < d + Z.of_nat n)%Z.
Proof.
  revert d. induction n as [|n IH]; intros d; simpl.
  - lia.
  - rewrite IH. lia.
Qed.

Lemma days_from_nodup (d : date) (n : nat) : NoDup (days_from d n).
Proof.
  revert d. induction n as [|n IH]; intros d; simpl; constructor; auto.
  rewrite In_days_from. lia.
Qed.

Lemma days_from_sorted (d : date) (n : nat) : Sorted Z.lt (days_from d n).
Proof.
  revert d. induction n as [|n IH]; intros d; simpl; constructor; auto.
  destruct n; simpl; constructor. lia.
Qed.

Lemma raw_samples_dates (s e : date) (qi di b : R) :
  map fst (raw_samples s e qi di b) = date_range s e.
Proof. unfold raw_samples. rewrite map_map. apply map_id. Qed.

Lemma nodup_fst_filter (f : date * R -> bool) (l : list (date * R)) :
  NoDup (map fst l) -> NoDup (map fst (filter f l)).
Proof.
  induction l as [|x l IH]; simpl; intros H; [constructor|].
  inversion H as [|? ? Hx Hl]; subst.
  destruct (f x); simpl; [constructor|]; auto.
  intros Hin. apply Hx. apply in_map_iff in Hin as [y [Hy Hin]].
  apply filter_In in Hin as [Hin _]. rewrite <- Hy. apply in_map. assumption.
Qed.

Lemma make_profile_dates_nodup (s e : date) (qi di b q : R) :
  NoDup (map p_date (make_profile s e qi di b q)).
Proof.
  replace (map p_date (make_profile s e qi di b q))
    with (map fst (rate_samples (make_profile s e qi di b q)))
    by (unfold rate_samples; rewrite map_map; reflexivity).
  rewrite make_profile_samples. apply nodup_fst_filter.
  rewrite raw_samples_dates. apply days_from_nodup.
Qed.

Lemma nonincreasing_head (x : date * R) (l : list (date * R)) :
  nonincreasing (x :: l) -> forall y, In y l -> snd y <= snd x.
Proof.
  revert x. induction l as [|z l IH]; intros x H y Hy; [destruct Hy|].
  destruct H as [Hzx Hl]. destruct Hy as [<-|Hy]; [assumption|].
  specialize (IH z Hl y Hy). lra.
Qed.

Lemma filter_eq_stop (q : R) (l : list (date * R)) :
  nonincreasing l ->
  drop_abandoned q l = stop_at_first_breach q l.
Proof.
  unfold drop_abandoned.
  induction l as [|[d r] l IH]; intros H; simpl; [reflexivity|].
  destruct (below q r) eqn:B; simpl.
  - apply below_true in B.
    assert (Hall : forall y, In y l -> below q (snd y) = true).
    { intros y Hy. apply below_true.
      pose proof (nonincreasing_head (d, r) l H y Hy). simpl in *. lra. }
    clear IH H. induction l as [|y l IHl]; simpl; [reflexivity|].
    rewrite (Hall y (or_introl eq_refl)). simpl.
    apply IHl. intros z Hz. apply Hall. right. assumption.
  - f_equal. apply IH. destruct l; [exact I|]. apply H.
Qed.

Lemma raw_samples_nonincreasing (s : date) (qi di b : R) (d0 : date) (n : nat) :
  0 <= qi -> 0 <= di -> 0 <= b -> (s <= d0)%Z ->
  nonincreasing (map (fun d => (d, arps_rate (IZR (d - s)) qi di b)) (days_from d0 n)).
Proof.
  intros Hq Hd Hb. revert d0. induction n as [|n IH]; intros d0 Hs; [exact I|].
  destruct n as [|n]; [exact I|].
  split.
  - simpl. apply arps_rate_antitone; try assumption.
    + apply IZR_le. lia.
    + apply IZR_le. lia.
  - apply (IH (d0 + 1)%Z). lia.
Qed.

Lemma stop_is_prefix (q : R) (l : list (date * R)) :
  exists k, map fst (stop_at_first_breach q l) = firstn k (map fst l).
Proof.
  induction l as [|[d r] l [k IH]]; simpl.
  - exists O. reflexivity.
  - destruct (below q r).
    + exists O. reflexivity.
    + exists (S k). simpl. rewrite IH. reflexivity.
Qed.

Lemma trapz_ends (y0 yl : R) (mid : list R) :
  trapz (y0 :: mid ++ [yl]) = y0 / 2 + sumR mid + yl / 2.
Proof.
  revert y0. induction mid as [|m mid IH]; intros y0.
  - simpl. lra.
  - replace (trapz (y0 :: (m :: mid) ++ [yl]))
      with (1 * (y0 + m) / 2 + trapz (m :: mid ++ [yl])) by reflexivity.
    rewrite IH. simpl. lra.
Qed.

Lemma arps_rate_at_0_no_decline (qi di b : R) :
  arps_rate (IZR 0) qi 0 b = qi.
Proof.
  unfold arps_rate. destruct (Req_dec_T b 0).
  - replace (- 0 * IZR 0) with 0 by (simpl; ring). rewrite exp_0. ring.
  - replace (1 + b * 0 * IZR 0) with 1 by (simpl; ring).
    rewrite Rpower_1_base. field.
Qed.

Lemma make_profile_single_day (s : date) (qi di b q : R) :
  make_profile s s qi di b q = [] \/
  exists r, make_profile s s qi di b q = [r].
Proof.
  unfold make_profile, raw_samples, date_range.
  replace (s - s + 1)%Z with 1%Z by lia. simpl.
  destruct (negb (below q (arps_rate (IZR (s - s)) qi di b))); simpl.
  - right. eexists. reflexivity.
  - left. reflexivity.
Qed.

(** A one-day profile with [qi = 10], no decline and no abandonment. *)
Lemma make_profile_one_row :
  make_profile 0%Z 0%Z 10 (1 / 100) 0 0 = [mk_prow 0%Z 10 (0 + 10)].
Proof.
  assert (Hr : arps_rate (IZR 0) 10 (1 / 100) 0 = 10).
  { unfold arps_rate. destruct (Req_dec_T 0 0) as [_|C]; [|lra].
    replace (- (1 / 100) * IZR 0) with 0 by (simpl; ring).
    rewrite exp_0. ring. }
  unfold make_profile, raw_samples, date_range. cbn [Z.to_nat days_from map].
  replace (0 - 0 + 1)%Z with 1%Z by reflexivity.
  replace (0 - 0)%Z with 0%Z by reflexivity. simpl.
  rewrite Hr. replace (below 0 10) with false
    by (symmetry; apply below_false; lra).
  reflexivity.
Qed.

(** Three days of exponential growth ([b = 0], [di = -1]) from [qi = 100]
    with [q_abnd = 150]: the first day ([100 < 150]) is dropped, the other
    two ([100 e] and [100 e^2]) are kept and summed from 0. *)
Lemma make_profile_filtered :
  make_profile 0%Z 2%Z 100 (-1) 0 150
    = [mk_prow 1%Z (100 * exp 1) (0 + 100 * exp 1);
       mk_prow 2%Z (100 * exp 2) (0 + 100 * exp 1 + 100 * exp 2)].
Proof.
  assert (Hraw : raw_samples 0%Z 2%Z 100 (-1) 0
                 = [(0%Z, arps_rate 0 100 (-1) 0); (1%Z, arps_rate 1 100 (-1) 0);
                    (2%Z, arps_rate 2 100 (-1) 0)]) by reflexivity.
  assert (Hr : forall t, arps_rate t 100 (-1) 0 = 100 * exp t).
  { intros t. unfold arps_rate. destruct (Req_dec_T 0 0) as [_|C]; [|lra].
    replace (- -1 * t) with t by ring. reflexivity. }
  pose proof (exp_ineq1 1 ltac:(lra)) as E1.
  pose proof (exp_ineq1 2 ltac:(lra)) as E2.
  unfold make_profile. rewrite Hraw, !Hr, exp_0. unfold drop_abandoned.
  cbn [filter snd].
  assert (B0 : below 150 (100 * 1) = true) by (apply below_true; lra).
  assert (B1 : below 150 (100 * exp 1) = false) by (apply below_false; lra).
  assert (B2 : below 150 (100 * exp 2) = false) by (apply below_false; lra).
  rewrite B0, B1, B2. reflexivity.
Qed.

(* ------------------------------------------------------------------ *)
(** ** Claims about [arps_rate], [make_profile] and [eur_from_profile] *)

(** C1: for [t, qi, di, b >= 0], [arps_rate] is [qi * exp (-di t)] when
    [b = 0] and [qi / (1 + b di t)^(1/b)] when [b > 0], the base of the
    power being positive (so the float power is defined and no error or
    NaN arises); it is [qi] at [t = 0], and the constant [qi] for every [t]
    when [di = 0]. *)
Theorem arps_rate_contract (t qi di b : R) :
  0 <= t -> 0 <= qi -> 0 <= di -> 0 <= b ->
  (b = 0 -> arps_rate t qi di b = qi * exp (- di * t)) /\
  (0 < b -> 0 < 1 + b * di * t /\
            arps_rate t qi di b = qi / Rpower (1 + b * di * t) (1 / b)) /\
  arps_rate 0 qi di b = qi /\
  (di = 0 -> forall t', arps_rate t' qi di b = qi).
Proof.
  intros Ht Hq Hd Hb. unfold arps_rate.
  split; [|split; [|split]].
  - intros ->. destruct (Req_dec_T 0 0); [reflexivity | congruence].
  - intros Hbp. split; [apply hyperbolic_base_pos; assumption|].
    destruct (Req_dec_T b 0); [lra | reflexivity].
  - destruct (Req_dec_T b 0).
    + replace (- di * 0) with 0 by ring. rewrite exp_0. ring.
    + replace (1 + b * di * 0) with 1 by ring. rewrite Rpower_1_base. field.
  - intros -> t'. destruct (Req_dec_T b 0).
    + replace (- 0 * t') with 0 by ring. rewrite exp_0. ring.
    + replace (1 + b * 0 * t') with 1 by ring. rewrite Rpower_1_base. field.
Qed.

Lemma arps_rate_contract_witness :
  (0 <= 5 /\ 0 <= 1000 /\ 0 <= 1 / 1000 /\ 0 <= 1) /\
  ((1 = 0 -> arps_rate 5 1000 (1 / 1000) 1 = 1000 * exp (- (1 / 1000) * 5)) /\
   (0 < 1 -> 0 < 1 + 1 * (1 / 1000) * 5 /\
             arps_rate 5 1000 (1 / 1000) 1
             = 1000 / Rpower (1 + 1 * (1 / 1000) * 5) (1 / 1)) /\
   arps_rate 0 1000 (1 / 1000) 1 = 1000 /\
   (1 / 1000 = 0 -> forall t', arps_rate t' 1000 (1 / 1000) 1 = 1000)).
Proof.
  split; [repeat split; lra|].
  apply (arps_rate_contract 5 1000 (1 / 1000) 1); lra.
Defined.

(** C2 (amended): [eur_from_profile] is the trapezoidal rule with spacing 1.
    For every profile of [n >= 2] rows it is
    [rate[0]/2 + rate[1] + ... + rate[n-2] + rate[n-1]/2]; for the rates
    [10, 20, 10] it is exactly 30, not the plain sum 40; a profile of a
    single row gives 0 (and the empty profile 0). *)
Theorem eur_trapezoid (r0 rl : prow) (mid : profile) :
  eur_from_profile (r0 :: mid ++ [rl])
    = p_rate r0 / 2 + sumR (map p_rate mid) + p_rate rl / 2 /\
  eur_from_profile [mk_prow 1%Z 10 10; mk_prow 2%Z 20 30; mk_prow 3%Z 10 40] = 30 /\
  sumR (map p_rate [mk_prow 1%Z 10 10; mk_prow 2%Z 20 30; mk_prow 3%Z 10 40]) = 40 /\
  eur_from_profile [r0] = 0.
Proof.
  split; [|split; [|split]].
  - unfold eur_from_profile. rewrite map_cons, map_app. simpl map.
    apply trapz_ends.
  - simpl. lra.
  - simpl. lra.
  - reflexivity.
Qed.

(** C2 as stated fails for a one-row profile: the claimed formula
    [rate[0]/2 + (empty middle) + rate[n-1]/2] is [10] for the single sample
    of rate 10 produced by a one-day range, while the code returns 0. *)
Lemma eur_trapezoid_one_row_counterexample :
  let df := make_profile 0%Z 0%Z 10 (1 / 100) 0 0 in
  let rs := map p_rate df in
  let n := List.length df in
  df <> [] /\
  eur_from_profile df
    <> nth 0 rs 0 / 2 + sumR (firstn (n - 2)%nat (skipn 1 rs)) + nth (n - 1)%nat rs 0 / 2.
Proof.
  cbv zeta. rewrite make_profile_one_row. split; [discriminate|].
  simpl. lra.
Qed.

(** C3: [make_profile] keeps exactly the generated samples whose rate is
    not below [q_abnd], each sample tested on its own ([filter]); dropped
    samples are removed, not zero-filled; hence every returned row has
    [rate >= q_abnd], and a sample whose rate equals [q_abnd] is kept. *)
Theorem make_profile_abandonment (s e : date) (qi di b q : R) :
  rate_samples (make_profile s e qi di b q)
    = filter (fun sm => negb (below q (snd sm))) (raw_samples s e qi di b) /\
  (forall row, In row (make_profile s e qi di b q) -> q <= p_rate row) /\
  (forall d r, In (d, r) (raw_samples s e qi di b) ->
     (In (d, r) (rate_samples (make_profile s e qi di b q)) <-> q <= r)).
Proof.
  pose proof (make_profile_samples s e qi di b q) as HS.
  unfold drop_abandoned in HS.
  split; [|split].
  - exact HS.
  - intros row Hin.
    assert (Hin' : In (p_date row, p_rate row) (rate_samples (make_profile s e qi di b q)))
      by (unfold rate_samples; apply (in_map (fun r => (p_date r, p_rate r))); exact Hin).
    rewrite HS in Hin'. apply filter_In in Hin' as [_ Hk].
    apply negb_true_iff, below_false in Hk. exact Hk.
  - intros d r Hraw. rewrite HS, filter_In. simpl.
    rewrite negb_true_iff, below_false. tauto.
Qed.

(** C5: the [cum] column of the [k]-th row of a profile is the sum of the
    rates of rows [0..k] of the profile, i.e. of the first [k+1] samples
    that survived the abandonment filter. *)
Theorem make_profile_cum (s e : date) (qi di b q : R) (k : nat) (row : prow) :
  nth_error (make_profile s e qi di b q) k = Some row ->
  p_cum row = sumR (map p_rate (firstn (S k) (make_profile s e qi di b q))) /\
  p_cum row = sumR (firstn (S k) (map snd (drop_abandoned q (raw_samples s e qi di b)))).
Proof.
  intros H.
  assert (Hc : p_cum row
               = sumR (firstn (S k) (map snd (drop_abandoned q (raw_samples s e qi di b))))).
  { unfold make_profile in H. apply cumsum_nth in H. rewrite H. ring. }
  split; [|exact Hc].
  rewrite Hc, <- firstn_map, rates_of_profile, make_profile_samples. reflexivity.
Qed.

Lemma make_profile_cum_witness :
  List.length (raw_samples 0%Z 2%Z 100 (-1) 0) = 3%nat /\
  nth_error (make_profile 0%Z 2%Z 100 (-1) 0 150) 1
    = Some (mk_prow 2%Z (100 * exp 2) (0 + 100 * exp 1 + 100 * exp 2)) /\
  (p_cum (mk_prow 2%Z (100 * exp 2) (0 + 100 * exp 1 + 100 * exp 2))
     = sumR (map p_rate (firstn 2 (make_profile 0%Z 2%Z 100 (-1) 0 150))) /\
   p_cum (mk_prow 2%Z (100 * exp 2) (0 + 100 * exp 1 + 100 * exp 2))
     = sumR (firstn 2 (map snd (drop_abandoned 150 (raw_samples 0%Z 2%Z 100 (-1) 0))))).
Proof.
  split; [reflexivity|]. split.
  - rewrite make_profile_filtered. reflexivity.
  - apply (make_profile_cum 0%Z 2%Z 100 (-1) 0 150 1
             (mk_prow 2%Z (100 * exp 2) (0 + 100 * exp 1 + 100 * exp 2))).
    rewrite make_profile_filtered. reflexivity.
Defined.

Lemma arps_rate_at_0 (qi di b : R) : arps_rate 0 qi di b = qi.
Proof.
  unfold arps_rate. destruct (Req_dec_T b 0).
  - replace (- di * 0) with 0 by ring. rewrite exp_0. ring.
  - replace (1 + b * di * 0) with 1 by ring. rewrite Rpower_1_base. field.
Qed.

Lemma profile_dates (p : profile) : map p_date p = map fst (rate_samples p).
Proof. unfold rate_samples. rewrite map_map. reflexivity. Qed.

(** C8: for [qi, di, b >= 0] the rate never increases with [t >= 0], and
    strictly decreases when [qi, di > 0] (for [b = 1, qi = 1000,
    di = 0.001] the rate at 0 is 1000); consequently the per-sample filter
    of [make_profile] gives the same profile as stopping at the first
    sample below the threshold, and the retained dates are a prefix of the
    generated date range. *)
Theorem make_profile_truncates (s e : date) (qi di b q : R) :
  0 <= qi -> 0 <= di -> 0 <= b ->
  (forall t1 t2, 0 <= t1 -> t1 <= t2 ->
     arps_rate t2 qi di b <= arps_rate t1 qi di b) /\
  (0 < qi -> 0 < di -> forall t1 t2, 0 <= t1 -> t1 < t2 ->
     arps_rate t2 qi di b < arps_rate t1 qi di b) /\
  arps_rate 0 1000 (1 / 1000) 1 = 1000 /\
  make_profile s e qi di b q = make_profile_truncating s e qi di b q /\
  (exists k, map p_date (make_profile s e qi di b q) = firstn k (date_range s e)).
Proof.
  intros Hq Hd Hb.
  assert (Heq : make_profile s e qi di b q = make_profile_truncating s e qi di b q).
  { unfold make_profile, make_profile_truncating. f_equal.
    apply filter_eq_stop. unfold raw_samples, date_range.
    apply raw_samples_nonincreasing; try assumption. lia. }
  split; [|split; [|split; [|split]]].
  - intros t1 t2 H1 H12. apply arps_rate_antitone; assumption.
  - intros Hq' Hd' t1 t2 H1 H12. apply arps_rate_strict; assumption.
  - apply arps_rate_at_0.
  - exact Heq.
  - rewrite Heq, profile_dates. unfold make_profile_truncating.
    rewrite rate_samples_cumsum, <- (raw_samples_dates s e qi di b).
    apply stop_is_prefix.
Qed.

Lemma make_profile_truncates_witness :
  (0 <= 1000 /\ 0 <= 1 / 1000 /\ 0 <= 1) /\
  ((forall t1 t2, 0 <= t1 -> t1 <= t2 ->
      arps_rate t2 1000 (1 / 1000) 1 <= arps_rate t1 1000 (1 / 1000) 1) /\
   (0 < 1000 -> 0 < 1 / 1000 -> forall t1 t2, 0 <= t1 -> t1 < t2 ->
      arps_rate t2 1000 (1 / 1000) 1 < arps_rate t1 1000 (1 / 1000) 1) /\
   arps_rate 0 1000 (1 / 1000) 1 = 1000 /\
   make_profile 0%Z 365%Z 1000 (1 / 1000) 1 500
     = make_profile_truncating 0%Z 365%Z 1000 (1 / 1000) 1 500 /\
   (exists k, map p_date (make_profile 0%Z 365%Z 1000 (1 / 1000) 1 500)
                = firstn k (date_range 0%Z 365%Z))).
Proof.
  split; [repeat split; lra|].
  apply (make_profile_truncates 0%Z 365%Z 1000 (1 / 1000) 1 500); lra.
Defined.

(** C10: a profile with exactly one row has EUR 0, whatever its rate (the
    trapezoidal rule over one point is 0), as has the empty profile; every
    one-day forecast has EUR 0, e.g. the one-day profile of rate 10. *)
Theorem eur_single_row_zero :
  (forall row, eur_from_profile [row] = 0) /\
  eur_from_profile [] = 0 /\
  (forall s qi di b q, eur_from_profile (make_profile s s qi di b q) = 0) /\
  (map p_rate (make_profile 0%Z 0%Z 10 (1 / 100) 0 0) = [10] /\
   eur_from_profile (make_profile 0%Z 0%Z 10 (1 / 100) 0 0) = 0).
Proof.
  split; [|split; [|split]].
  - reflexivity.
  - reflexivity.
  - intros s qi di b q.
    destruct (make_profile_single_day s qi di b q) as [-> | [r ->]]; reflexivity.
  - rewrite make_profile_one_row. split; reflexivity.
Qed.

(* ------------------------------------------------------------------ *)
(** ** Lemmas on the aggregation *)

Lemma make_profile_empty_range (s e : date) (qi di b q : R) :
  (e < s)%Z -> make_profile s e qi di b q = [].
Proof.
  intros H. unfold make_profile, raw_samples, date_range.
  destruct (e - s + 1)%Z eqn:E; try lia; reflexivity.
Qed.

Lemma up_0 : up 0 = 1%Z.
Proof. symmetry. apply tech_up; simpl; lra. Qed.

Lemma round2_0 : round2 0 = 0.
Proof.
  unfold round2, round_half_even, Int_part.
  replace (0 * 100) with 0 by ring. rewrite up_0. simpl.
  destruct (Rlt_dec (0 - 0) (1 / 2)) as [_|C]; [|lra].
  unfold Rdiv. ring.
Qed.

Lemma label_cases_app (l1 l2 : list fcase) (lbl : string) :
  label_cases (l1 ++ l2) lbl = label_cases l1 lbl ++ label_cases l2 lbl.
Proof. unfold label_cases. apply filter_app. Qed.

Lemma eur_total_app (l : string) (r1 r2 : list eur_row) :
  eur_total l (r1 ++ r2) = eur_total l r1 + eur_total l r2.
Proof.
  induction r1 as [|e r1 IH]; simpl; [ring|].
  destruct (String.eqb (e_case e) l); rewrite IH; ring.
Qed.

(** C4: an empty date range gives an empty profile (no error); the EUR of
    the empty profile is 0; in the aggregation a case whose [eff_date] is
    after [end_date] has an empty profile, leaves the summed series of its
    label unchanged, and its per-well EUR row (rounded 0) leaves every
    per-case total unchanged. *)
Theorem empty_profile_contributes_nothing
    (s e : date) (qi0 di0 b0 q : R)
    (pre post : list fcase) (c : fcase) (end_date : date) (lbl : string)
    (epre epost : list eur_row) :
  (e < s)%Z -> (end_date < eff_date c)%Z ->
  make_profile s e qi0 di0 b0 q = [] /\
  eur_from_profile [] = 0 /\
  case_profile end_date q c = [] /\
  label_series (pre ++ c :: post) lbl end_date q
    = label_series (pre ++ post) lbl end_date q /\
  (forall l,
     eur_total l (epre ++ mk_eur_row (well_name c) (case_label c) (eff_date c)
                    (round2 (eur_from_profile (case_profile end_date q c))) :: epost)
     = eur_total l (epre ++ epost)).
Proof.
  intros Hse Hc.
  assert (Hp : case_profile end_date q c = [])
    by (unfold case_profile; apply make_profile_empty_range; exact Hc).
  split; [apply make_profile_empty_range; exact Hse|].
  split; [reflexivity|].
  split; [exact Hp|].
  split.
  - unfold label_series, label_samples. f_equal.
    rewrite !label_cases_app, !flat_map_app. f_equal.
    unfold label_cases. simpl.
    destruct (String.eqb (case_label c) lbl); simpl; [rewrite Hp|]; reflexivity.
  - intros l. rewrite !eur_total_app. simpl. rewrite Hp. simpl eur_from_profile.
    rewrite round2_0. destruct (String.eqb (case_label c) l); ring.
Qed.

Lemma empty_profile_contributes_nothing_witness :
  ((0 < 1)%Z /\ (5 < 10)%Z) /\
  (make_profile 1%Z 0%Z 100 (1 / 100) 0 10 = [] /\
   eur_from_profile [] = 0 /\
   case_profile 5%Z 10 (mk_fcase "A" "base" 10%Z 100 (1 / 100) 0) = [] /\
   label_series ([] ++ mk_fcase "A" "base" 10%Z 100 (1 / 100) 0 :: []) "base" 5%Z 10
     = label_series ([] ++ []) "base" 5%Z 10 /\
   (forall l,
      eur_total l ([] ++ mk_eur_row (well_name (mk_fcase "A" "base" 10%Z 100 (1 / 100) 0))
                     (case_label (mk_fcase "A" "base" 10%Z 100 (1 / 100) 0))
                     (eff_date (mk_fcase "A" "base" 10%Z 100 (1 / 100) 0))
                     (round2 (eur_from_profile
                        (case_profile 5%Z 10 (mk_fcase "A" "base" 10%Z 100 (1 / 100) 0)))) :: [])
      = eur_total l ([] ++ []))).
Proof.
  split; [split; reflexivity|].
  apply (empty_profile_contributes_nothing 1%Z 0%Z 100 (1 / 100) 0 10 [] []
           (mk_fcase "A" "base" 10%Z 100 (1 / 100) 0) 5%Z "base" [] []);
    reflexivity.
Defined.

Lemma insert_date_In (d x : date) (ds : list date) :
  In x (insert_date d ds) <-> x = d \/ In x ds.
Proof.
  induction ds as [|y ds IH]; simpl; [intuition congruence|].
  destruct (Z.eqb d y) eqn:E1;
    [apply Z.eqb_eq in E1; subst; simpl; intuition congruence|].
  destruct (Z.ltb d y); simpl; [intuition congruence|].
  rewrite IH. intuition congruence.
Qed.

Lemma insert_date_head (x d : date) (ds : list date) :
  HdRel Z.lt x ds -> (x < d)%Z -> HdRel Z.lt x (insert_date d ds).
Proof.
  intros H Hxd. destruct ds as [|y ds]; simpl; [constructor; assumption|].
  inversion H; subst.
  destruct (Z.eqb d y); [constructor; assumption|].
  destruct (Z.ltb d y); constructor; assumption.
Qed.

Lemma insert_date_sorted (d : date) (ds : list date) :
  Sorted Z.lt ds -> Sorted Z.lt (insert_date d ds).
Proof.
  induction ds as [|y ds IH]; intros H; simpl; [repeat constructor|].
  destruct (Z.eqb d y) eqn:E1; [assumption|].
  destruct (Z.ltb d y) eqn:E2.
  - constructor; [assumption|]. constructor. apply Z.ltb_lt. assumption.
  - inversion H; subst. constructor; [apply IH; assumption|].
    apply insert_date_head; [assumption|].
    apply Z.eqb_neq in E1. apply Z.ltb_ge in E2. lia.
Qed.

Lemma group_keys_sorted (rows : list (date * R)) : Sorted Z.lt (group_keys rows).
Proof.
  unfold group_keys. induction (map fst rows) as [|d ds IH]; simpl;
    [constructor | apply insert_date_sorted; assumption].
Qed.

Lemma group_keys_In (rows : list (date * R)) (d : date) :
  In d (group_keys rows) <-> In d (map fst rows).
Proof.
  unfold group_keys. induction (map fst rows) as [|x ds IH]; simpl; [tauto|].
  rewrite insert_date_In, IH. intuition.
Qed.

Lemma sorted_lt_nodup (ds : list date) : Sorted Z.lt ds -> NoDup ds.
Proof.
  intros H. apply Sorted_StronglySorted in H; [|intros x y z; lia].
  induction H as [|x ds Hs IH Hall]; constructor; [|assumption].
  intros Hin. rewrite Forall_forall in Hall. specialize (Hall x Hin). lia.
Qed.

Lemma sum_at_app (d : date) (l1 l2 : list (date * R)) :
  sum_at d (l1 ++ l2) = sum_at d l1 + sum_at d l2.
Proof.
  unfold sum_at. induction l1 as [|x l1 IH]; simpl; [ring|].
  destruct (Z.eqb (fst x) d); rewrite IH; ring.
Qed.

Lemma sum_at_absent (d : date) (p : profile) :
  ~ In d (map p_date p) -> sum_at d (rate_samples p) = 0.
Proof.
  induction p as [|r p IH]; intros H; [reflexivity|].
  unfold sum_at in *. simpl in *.
  destruct (Z.eqb (p_date r) d) eqn:E.
  - apply Z.eqb_eq in E. exfalso. apply H. left. assumption.
  - apply IH. tauto.
Qed.

Lemma sum_at_profile (d : date) (p : profile) :
  NoDup (map p_date p) -> sum_at d (rate_samples p) = rate_on d p.
Proof.
  unfold rate_on. induction p as [|r p IH]; intros H; [reflexivity|].
  simpl in H. inversion H as [|? ? Hn Hnd]; subst.
  unfold sum_at in *. simpl.
  destruct (Z.eqb (p_date r) d) eqn:E.
  - apply Z.eqb_eq in E. subst. fold (sum_at (p_date r) (rate_samples p)).
    rewrite sum_at_absent by assumption. ring.
  - apply IH. assumption.
Qed.

Lemma sum_at_label_samples (cases : list fcase) (lbl : string) (end_date : date)
    (q : R) (d : date) :
  sum_at d (label_samples cases lbl end_date q)
    = sumR (map (fun c => rate_on d (case_profile end_date q c)) (label_cases cases lbl)).
Proof.
  unfold label_samples. induction (label_cases cases lbl) as [|c cs IH]; [reflexivity|].
  simpl. rewrite sum_at_app, IH, sum_at_profile; [reflexivity|].
  apply make_profile_dates_nodup.
Qed.

Lemma sumR_map_plus {A} (f g : A -> R) (ks : list A) :
  sumR (map (fun k => f k + g k) ks) = sumR (map f ks) + sumR (map g ks).
Proof. induction ks as [|k ks IH]; simpl; [ring | rewrite IH; ring]. Qed.

Lemma sumR_indicator (a : date) (v : R) (ks : list date) :
  NoDup ks -> In a ks ->
  sumR (map (fun k => if Z.eqb a k then v else 0) ks) = v.
Proof.
  induction ks as [|k ks IH]; intros Hnd Hin; [destruct Hin|].
  inversion Hnd as [|? ? Hk Hks]; subst. simpl.
  destruct (Z.eqb a k) eqn:E.
  - apply Z.eqb_eq in E. subst.
    assert (Hz : forall ks', ~ In k ks' ->
              sumR (map (fun k' => if Z.eqb k k' then v else 0) ks') = 0).
    { induction ks' as [|k' ks' IH']; intros Hn; [reflexivity|]. simpl.
      destruct (Z.eqb k k') eqn:E'; [apply Z.eqb_eq in E'; subst; exfalso; apply Hn; left; reflexivity|].
      rewrite IH'; [ring|]. intros Hi; apply Hn; right; assumption. }
    rewrite Hz by assumption. ring.
  - destruct Hin as [->|Hin]; [rewrite Z.eqb_refl in E; discriminate|].
    rewrite IH by assumption. ring.
Qed.

Lemma sum_over_keys (rows : list (date * R)) (ks : list date) :
  NoDup ks -> (forall d, In d (map fst rows) -> In d ks) ->
  sumR (map (fun k => sum_at k rows) ks) = sumR (map snd rows).
Proof.
  intros Hnd. induction rows as [|x rows IH]; intros Hk.
  - clear Hnd Hk. unfold sum_at. simpl.
    induction ks as [|k ks IHk]; simpl; [reflexivity|]. rewrite IHk. ring.
  - rewrite (map_ext (fun k => sum_at k (x :: rows))
               (fun k => (if Z.eqb (fst x) k then snd x else 0) + sum_at k rows)).
    + rewrite sumR_map_plus, sumR_indicator, IH; try assumption.
      * reflexivity.
      * intros d Hd. apply Hk. right. assumption.
      * apply Hk. left. reflexivity.
    + intros k. unfold sum_at. simpl. destruct (Z.eqb (fst x) k); ring.
Qed.

Lemma groupby_date_sum_total (rows : list (date * R)) :
  sumR (map snd (groupby_date_sum rows)) = sumR (map snd rows).
Proof.
  unfold groupby_date_sum. rewrite map_map. simpl.
  apply sum_over_keys.
  - apply sorted_lt_nodup, group_keys_sorted.
  - intros d Hd. apply group_keys_In. assumption.
Qed.

Lemma last_cons_default {A} (a d : A) (l : list A) : last (a :: l) d = last l a.
Proof.
  revert a d. induction l as [|x l IH]; intros a d; [reflexivity|].
  change (last (a :: x :: l) d) with (last (x :: l) d). rewrite !IH.
  reflexivity.
Qed.

Lemma running_sum_last (acc : R) (xs : list R) :
  last (running_sum acc xs) acc = acc + sumR xs.
Proof.
  revert acc. induction xs as [|x xs IH]; intros acc; [simpl; ring|].
  simpl running_sum. rewrite last_cons_default, IH. simpl. ring.
Qed.

Lemma group_cumsum_label (lbl : string) (seen : list (string * R)) (rows : list sum_row) :
  map fst (filter (fun sc => String.eqb (s_label (fst sc)) lbl) (group_cumsum_from seen rows))
    = filter (fun s => String.eqb (s_label s) lbl) rows /\
  map snd (filter (fun sc => String.eqb (s_label (fst sc)) lbl) (group_cumsum_from seen rows))
    = running_sum (seen_total lbl seen)
                  (map s_rate (filter (fun s => String.eqb (s_label s) lbl) rows)).
Proof.
  revert seen. induction rows as [|s rows IH]; intros seen; [split; reflexivity|].
  simpl. destruct (String.eqb (s_label s) lbl) eqn:E.
  - apply String.eqb_eq in E. simpl.
    destruct (IH ((s_label s, seen_total (s_label s) seen + s_rate s) :: seen)) as [H1 H2].
    rewrite H1, H2. simpl. rewrite E, String.eqb_refl. split; reflexivity.
  - destruct (IH ((s_label s, seen_total (s_label s) seen + s_rate s) :: seen)) as [H1 H2].
    rewrite H1, H2. simpl. rewrite String.eqb_sym, E. split; reflexivity.
Qed.

Lemma label_blocks_labels (cases : list fcase) (end_date : date) (q : R)
    (labels : list string) es rs ss :
  label_blocks cases end_date q labels = Some (es, rs, ss) ->
  forall x, In x ss -> In (s_label x) labels.
Proof.
  revert es rs ss. induction labels as [|l labels IH]; intros es rs ss H x Hx.
  - simpl in H. injection H as _ _ <-. destruct Hx.
  - simpl in H. unfold label_block in H.
    destruct (label_cases cases l) as [|c0 cs] eqn:Hl; [discriminate|].
    destruct (label_blocks cases end_date q labels) as [[[e2 r2] s2]|]; [|discriminate].
    injection H as _ _ <-. apply in_app_or in Hx as [Hx|Hx].
    + left. apply in_map_iff in Hx as [dr [<- _]]. reflexivity.
    + right. apply (IH e2 r2 s2 eq_refl x Hx).
Qed.

Lemma filter_label_block (l lbl w : string) (xs : list (date * R)) :
  filter (fun s => String.eqb (s_label s) lbl)
         (map (fun dr => mk_sum_row (fst dr) (snd dr) l w) xs)
    = if String.eqb l lbl then map (fun dr => mk_sum_row (fst dr) (snd dr) l w) xs
      else [].
Proof.
  induction xs as [|x xs IH]; simpl; [destruct (String.eqb l lbl); reflexivity|].
  rewrite IH. destruct (String.eqb l lbl); reflexivity.
Qed.

Lemma filter_none {A} (f : A -> bool) (l : list A) :
  (forall x, In x l -> f x = false) -> filter f l = [].
Proof.
  induction l as [|x l IH]; intros H; simpl; [reflexivity|].
  rewrite H by (left; reflexivity). apply IH. intros y Hy. apply H. right. assumption.
Qed.

Lemma label_blocks_filter (cases : list fcase) (end_date : date) (q : R)
    (labels : list string) (lbl : string) es rs ss :
  NoDup labels -> In lbl labels ->
  label_blocks cases end_date q labels = Some (es, rs, ss) ->
  exists w0, filter (fun s => String.eqb (s_label s) lbl) ss
             = map (fun dr => mk_sum_row (fst dr) (snd dr) lbl w0)
                   (label_series cases lbl end_date q).
Proof.
  revert es rs ss. induction labels as [|l labels IH]; intros es rs ss Hnd Hin H;
    [destruct Hin|].
  inversion Hnd as [|? ? Hl Hnd']; subst.
  simpl in H. unfold label_block in H.
  destruct (label_cases cases l) as [|c0 cs] eqn:Hlc; [discriminate|].
  destruct (label_blocks cases end_date q labels) as [[[e2 r2] s2]|] eqn:Hb;
    [|discriminate].
  injection H as _ _ <-. rewrite filter_app, filter_label_block.
  destruct (String.eqb l lbl) eqn:E.
  - apply String.eqb_eq in E. subst l. exists (well_name c0).
    rewrite (filter_none _ s2); [apply app_nil_r|].
    intros x Hx. apply String.eqb_neq. intros Heq.
    apply Hl. rewrite <- Heq. apply (label_blocks_labels _ _ _ _ _ _ _ Hb x Hx).
  - destruct Hin as [->|Hin]; [rewrite String.eqb_refl in E; discriminate|].
    destruct (IH e2 r2 s2 Hnd' Hin eq_refl) as [w0 Hw]. exists w0. exact Hw.
Qed.

Lemma sumR_app (l1 l2 : list R) : sumR (l1 ++ l2) = sumR l1 + sumR l2.
Proof. induction l1 as [|x l1 IH]; simpl; [ring | rewrite IH; ring]. Qed.

Lemma label_samples_total (cases : list fcase) (lbl : string) (end_date : date) (q : R) :
  sumR (map snd (label_samples cases lbl end_date q))
    = sumR (map (fun c => sumR (map p_rate (case_profile end_date q c)))
                (label_cases cases lbl)).
Proof.
  unfold label_samples. induction (label_cases cases lbl) as [|c cs IH]; [reflexivity|].
  simpl. rewrite map_app, sumR_app, IH, rates_of_profile. reflexivity.
Qed.

Lemma groupby_date_sum_keys (rows : list (date * R)) :
  map fst (groupby_date_sum rows) = group_keys rows.
Proof. unfold groupby_date_sum. rewrite map_map. apply map_id. Qed.

(** A worked selection: two wells of the label "base", A from day 1 and B
    from day 3, hyperbolic ([b = 1]) with [di = 1], forecast to day 4 with
    no abandonment. *)
Definition example_case_A : fcase := mk_fcase "A" "base" 1%Z 100 1 1.
Definition example_case_B : fcase := mk_fcase "B" "base" 3%Z 60 1 1.
Definition example_cases : list fcase := [example_case_A; example_case_B].

Definition example_profile (c : fcase) : profile :=
  cumsum_from 0 (raw_samples (eff_date c) 4%Z (qi c) (di c) (b c)).

Definition example_outputs : outputs :=
  let eurs := map (fun c => mk_eur_row (well_name c) "base" (eff_date c)
                              (round2 (eur_from_profile (example_profile c))))
                  example_cases in
  let raws := flat_map (fun c => map (fun r => mk_raw_row (p_date r) (p_rate r)
                                                 (p_cum r) "base" (well_name c))
                                     (example_profile c))
                       example_cases in
  let sums := map (fun dr => mk_sum_row (fst dr) (snd dr) "base" "A")
                  (groupby_date_sum
                     (flat_map (fun c => rate_samples (example_profile c)) example_cases)) in
  mk_outputs (eurs ++ []) (total_eur (eurs ++ [])) (group_cumsum (sums ++ [])) (raws ++ []).

Lemma arps_rate_nonneg (t qi di b : R) : 0 <= qi -> 0 <= arps_rate t qi di b.
Proof.
  intros Hq. unfold arps_rate. destruct (Req_dec_T b 0).
  - apply Rmult_le_pos; [assumption | left; apply exp_pos].
  - unfold Rdiv. apply Rmult_le_pos; [assumption|].
    left. apply Rinv_0_lt_compat, Rpower_pos.
Qed.

Lemma filter_all_true {A} (f : A -> bool) (l : list A) :
  (forall x, In x l -> f x = true) -> filter f l = l.
Proof.
  induction l as [|x l IH]; intros H; simpl; [reflexivity|].
  rewrite H by (left; reflexivity). f_equal. apply IH.
  intros y Hy. apply H. right. assumption.
Qed.

Lemma make_profile_keep_all (s e : date) (qi di b q : R) :
  0 <= qi -> q <= 0 ->
  make_profile s e qi di b q = cumsum_from 0 (raw_samples s e qi di b).
Proof.
  intros Hq Hq0. unfold make_profile. f_equal.
  unfold drop_abandoned. apply filter_all_true. intros x Hx.
  unfold raw_samples in Hx. apply in_map_iff in Hx as [d [<- _]]. simpl.
  apply negb_true_iff, below_false.
  pose proof (arps_rate_nonneg (IZR (d - s)) qi di b Hq). lra.
Qed.

Lemma example_label_cases : label_cases example_cases "base" = example_cases.
Proof. reflexivity. Qed.

Lemma example_case_profiles :
  case_profile 4%Z 0 example_case_A = example_profile example_case_A /\
  case_profile 4%Z 0 example_case_B = example_profile example_case_B.
Proof.
  split; unfold case_profile, example_profile; apply make_profile_keep_all;
    simpl; lra.
Qed.

Lemma example_label_samples :
  label_samples example_cases "base" 4%Z 0
    = flat_map (fun c => rate_samples (example_profile c)) example_cases.
Proof.
  destruct example_case_profiles as [HA HB].
  unfold label_samples. rewrite example_label_cases. unfold example_cases.
  cbn [flat_map]. rewrite HA, HB. reflexivity.
Qed.

Lemma forecast_example :
  forecast_outputs example_cases ["base"%string] 4%Z 0 = Rendered example_outputs.
Proof.
  destruct example_case_profiles as [HA HB].
  unfold forecast_outputs. cbn [label_blocks]. unfold label_block, label_series.
  rewrite example_label_samples, example_label_cases. unfold example_cases.
  cbn [map flat_map]. rewrite HA, HB. reflexivity.
Qed.

(** C6: for a selected label (the labels of a multiselect are distinct),
    the summed series of [forecast_outputs] has one row per date of the
    union of the label's case profiles, in increasing date order; the rate
    of a date is the sum over the label's cases of their rate on that date
    (0 for a case without a row then); the cumulative column is the running
    sum of that series, and its last value is the sum of the cases' total
    volumes (the sums of their rates). *)
Theorem summed_series_union (cases : list fcase) (labels : list string)
    (end_date : date) (q : R) (o : outputs) (lbl : string) :
  NoDup labels -> In lbl labels ->
  forecast_outputs cases labels end_date q = Rendered o ->
  let S := label_series cases lbl end_date q in
  let W := label_cases cases lbl in
  let F := filter (fun sc => String.eqb (s_label (fst sc)) lbl) (summed_series o) in
  Sorted Z.lt (map fst S) /\
  (forall d, In d (map fst S) <->
             exists c, In c W /\ In d (map p_date (case_profile end_date q c))) /\
  (forall d r, In (d, r) S ->
               r = sumR (map (fun c => rate_on d (case_profile end_date q c)) W)) /\
  map (fun sc => s_date (fst sc)) F = map fst S /\
  map (fun sc => s_rate (fst sc)) F = map snd S /\
  map snd F = running_sum 0 (map snd S) /\
  last (map snd F) 0
    = sumR (map (fun c => sumR (map p_rate (case_profile end_date q c))) W).
Proof.
  intros Hnd Hin Ho S W F.
  assert (HF : exists w0,
             map fst F = map (fun dr => mk_sum_row (fst dr) (snd dr) lbl w0) S /\
             map snd F = running_sum 0 (map snd S)).
  { unfold forecast_outputs in Ho. destruct labels as [|l0 ls]; [destruct Hin|].
    destruct (label_blocks cases end_date q (l0 :: ls)) as [[[es rs] ss]|] eqn:Hb;
      [|discriminate].
    destruct (keys_distinct (map pivot_key ss)) eqn:Hk; [|discriminate].
    injection Ho as <-. unfold F. simpl summed_series. unfold group_cumsum.
    destruct (group_cumsum_label lbl [] ss) as [H1 H2].
    destruct (label_blocks_filter _ _ _ _ _ _ _ _ Hnd Hin Hb) as [w0 Hw].
    exists w0. rewrite H1, H2, Hw. simpl seen_total. split; [reflexivity|].
    rewrite map_map. reflexivity. }
  destruct HF as [w0 [HF1 HF2]].
  assert (HS : S = groupby_date_sum (label_samples cases lbl end_date q)) by reflexivity.
  split; [|split; [|split; [|split; [|split; [|split]]]]].
  - rewrite HS, groupby_date_sum_keys. apply group_keys_sorted.
  - intros d. rewrite HS, groupby_date_sum_keys, group_keys_In.
    unfold label_samples. fold W. rewrite in_map_iff. split.
    + intros [[d' r] [Hd Hx]]. simpl in Hd. subst d'.
      apply in_flat_map in Hx as [c [Hc Hx]]. exists c. split; [assumption|].
      rewrite profile_dates. apply (in_map fst) in Hx. exact Hx.
    + intros [c [Hc Hx]]. rewrite profile_dates, in_map_iff in Hx.
      destruct Hx as [x [Hx1 Hx2]]. exists x. split; [assumption|].
      apply in_flat_map. exists c. split; assumption.
  - intros d r Hdr. rewrite HS in Hdr. unfold groupby_date_sum in Hdr.
    apply in_map_iff in Hdr as [k [Hk _]]. injection Hk as -> <-.
    apply sum_at_label_samples.
  - rewrite <- (map_map fst s_date), HF1, map_map. apply map_ext. reflexivity.
  - rewrite <- (map_map fst s_rate), HF1, map_map. apply map_ext. reflexivity.
  - exact HF2.
  - rewrite HF2, running_sum_last, HS, groupby_date_sum_total, label_samples_total.
    rewrite Rplus_0_l. reflexivity.
Qed.

Lemma summed_series_union_witness :
  map fst (label_series example_cases "base" 4%Z 0) = [1; 2; 3; 4]%Z /\
  (NoDup ["base"%string] /\ In "base"%string ["base"%string] /\
   forecast_outputs example_cases ["base"%string] 4%Z 0 = Rendered example_outputs) /\
  (let S := label_series example_cases "base" 4%Z 0 in
   let W := label_cases example_cases "base" in
   let F := filter (fun sc => String.eqb (s_label (fst sc)) "base")
                   (summed_series example_outputs) in
   Sorted Z.lt (map fst S) /\
   (forall d, In d (map fst S) <->
              exists c, In c W /\ In d (map p_date (case_profile 4%Z 0 c))) /\
   (forall d r, In (d, r) S ->
                r = sumR (map (fun c => rate_on d (case_profile 4%Z 0 c)) W)) /\
   map (fun sc => s_date (fst sc)) F = map fst S /\
   map (fun sc => s_rate (fst sc)) F = map snd S /\
   map snd F = running_sum 0 (map snd S) /\
   last (map snd F) 0
     = sumR (map (fun c => sumR (map p_rate (case_profile 4%Z 0 c))) W)).
Proof.
  split; [unfold label_series; rewrite example_label_samples; reflexivity|].
  split.
  - split; [repeat constructor; intros []|]. split; [left; reflexivity|].
    exact forecast_example.
  - exact (summed_series_union example_cases ["base"%string] 4%Z 0 example_outputs "base"
             (NoDup_cons "base"%string (@in_nil _ "base"%string) (NoDup_nil _))
             (or_introl eq_refl) forecast_example).
Defined.

(* ------------------------------------------------------------------ *)
(** ** Case insertion *)

(** The rows of a batch that pass the name checks of [insert_cases], with
    their names stripped, in batch order. *)
Fixpoint prepared (rows : list full_row) : list db_tuple :=
  match rows with
  | [] => []
  | (w, l, d, q, dd, bb) :: rest =>
      if is_empty (strip w) || is_empty (strip l) then prepared rest
      else (strip w, strip l, d, q, dd, bb) :: prepared rest
  end.

(** The reading of a batch in C7: the valid rows are offered to the
    database one by one, in order; a row the database takes is appended to
    the table and counted, a row it refuses is reported and the batch goes
    on. *)
Inductive db_run {E : Type} (execute : list db_tuple -> db_tuple -> option E)
  : list db_tuple -> list db_tuple -> list db_tuple -> nat -> list E -> Prop :=
| run_nil T : db_run execute T [] T 0 []
| run_insert T t ts T' n errs :
    execute T t = None -> db_run execute (T ++ [t]) ts T' n errs ->
    db_run execute T (t :: ts) T' (S n) errs
| run_report T t ts T' n errs e :
    execute T t = Some e -> db_run execute T ts T' n errs ->
    db_run execute T (t :: ts) T' n (e :: errs).

Lemma insert_loop_run {E : Type} (execute : list db_tuple -> db_tuple -> option E)
    (rows : list full_row) (table : list db_tuple) (count : nat) (rep : list E) :
  exists T' n errs, db_run execute table (prepared rows) T' n errs /\
    insert_loop E execute rows table count rep = (T', (count + n)%nat, rep ++ errs).
Proof.
  revert table count rep. induction rows as [|[[[[[w l] d] q] dd] bb] rows IH];
    intros table count rep; simpl.
  - exists table, 0%nat, []. split; [constructor|]. rewrite Nat.add_0_r, app_nil_r.
    reflexivity.
  - destruct (is_empty (strip w) || is_empty (strip l)); [apply IH|].
    destruct (execute table (strip w, strip l, d, q, dd, bb)) as [e|] eqn:He.
    + destruct (IH table count (rep ++ [e])) as (T' & n & errs & Hr & Hl).
      exists T', n, (e :: errs). split; [apply run_report; assumption|].
      rewrite Hl, <- app_assoc. reflexivity.
    + destruct (IH (table ++ [(strip w, strip l, d, q, dd, bb)]) (S count) rep)
        as (T' & n & errs & Hr & Hl).
      exists T', (S n), errs. split; [apply run_insert; assumption|].
      rewrite Hl. f_equal. f_equal. lia.
Qed.

Lemma db_run_shape {E : Type} (execute : list db_tuple -> db_tuple -> option E)
    (T : list db_tuple) (ts : list db_tuple) (T' : list db_tuple) (n : nat) (errs : list E) :
  db_run execute T ts T' n errs ->
  exists added, T' = T ++ added /\ List.length added = n /\
    (n + List.length errs)%nat = List.length ts /\ (forall t, In t added -> In t ts).
Proof.
  induction 1 as [T|T t ts T' n errs Hx Hr IH|T t ts T' n errs e Hx Hr IH].
  - exists []. rewrite app_nil_r. repeat split; [intros t []].
  - destruct IH as (added & -> & Hl & Hn & Hi). exists (t :: added).
    rewrite <- app_assoc. simpl. repeat split; [lia | lia |].
    intros x [<-|Hx']; [left; reflexivity | right; apply Hi; exact Hx'].
  - destruct IH as (added & -> & Hl & Hn & Hi). exists added.
    simpl. repeat split; [exact Hl | lia |]. intros x Hx'. right. apply Hi. exact Hx'.
Qed.

Lemma dropna_required_In (es : list entry) (r : full_row) :
  In r (dropna_required es) <->
  exists e w l d q dd bb,
    In e es /\ en_well_name e = Some w /\ en_case_label e = Some l /\
    en_eff_date e = Some d /\ en_qi e = Some q /\ en_di e = Some dd /\
    en_b e = Some bb /\ r = (w, l, d, q, dd, bb).
Proof.
  induction es as [|e es IH]; simpl.
  - split; [intros []|]. intros (e & _ & _ & _ & _ & _ & _ & [] & _).
  - destruct e as [[w|] [l|] [d|] [q|] [dd|] [bb|]]; simpl;
      try (rewrite IH; split;
           [intros (e' & w' & l' & d' & q' & dd' & bb' & Hin & H); 
            exists e', w', l', d', q', dd', bb'; split; [right; exact Hin | exact H]
           |intros (e' & w' & l' & d' & q' & dd' & bb' & [<-|Hin] & H1 & H2 & H3 & H4 & H5 & H6 & H7);
            [simpl in *; discriminate
            |exists e', w', l', d', q', dd', bb'; split; [exact Hin|]; tauto]]).
    rewrite IH. split.
    + intros [<-|(e' & w' & l' & d' & q' & dd' & bb' & Hin & H)].
      * exists (mk_entry (Some w) (Some l) (Some d) (Some q) (Some dd) (Some bb)),
          w, l, d, q, dd, bb. simpl. tauto.
      * exists e', w', l', d', q', dd', bb'. tauto.
    + intros (e' & w' & l' & d' & q' & dd' & bb' & [<-|Hin] & H1 & H2 & H3 & H4 & H5 & H6 & H7).
      * simpl in *. left. congruence.
      * right. exists e', w', l', d', q', dd', bb'. tauto.
Qed.

Lemma prepared_In (rows : list full_row) (t : db_tuple) :
  In t (prepared rows) <->
  exists w l d q dd bb,
    In (w, l, d, q, dd, bb) rows /\ is_empty (strip w) = false /\
    is_empty (strip l) = false /\ t = (strip w, strip l, d, q, dd, bb).
Proof.
  induction rows as [|[[[[[w l] d] q] dd] bb] rows IH]; simpl.
  - split; [intros []|]. intros (w & l & d & q & dd & bb & [] & _).
  - destruct (is_empty (strip w)) eqn:Ew; destruct (is_empty (strip l)) eqn:El; simpl;
      rewrite ?IH; split;
      try (intros (w' & l' & d' & q' & dd' & bb' & H1 & H2);
           exists w', l', d', q', dd', bb'; split; [right; exact H1 | exact H2]);
      try (intros (w' & l' & d' & q' & dd' & bb' & [H|H1] & H2 & H3 & H4);
           [injection H as <- <- <- <- <- <-; congruence
           |exists w', l', d', q', dd', bb'; tauto]).
    + intros [<-|(w' & l' & d' & q' & dd' & bb' & H1 & H2)].
      * exists w, l, d, q, dd, bb. tauto.
      * exists w', l', d', q', dd', bb'. tauto.
    + intros (w' & l' & d' & q' & dd' & bb' & [H|H1] & H2 & H3 & H4).
      * injection H as <- <- <- <- <- <-. left. symmetry. exact H4.
      * right. exists w', l', d', q', dd', bb'. tauto.
Qed.

(** The batch of the spec's example: four complete rows, the second with an
    empty [well_name], the fourth with surrounding blanks. *)
Definition example_batch : list entry :=
  [ mk_entry (Some (ustr_of "W1")) (Some (ustr_of "base")) (Some 20000%Z) (Some 100) (Some (1 / 100)) (Some 0);
    mk_entry (Some (ustr_of "")) (Some (ustr_of "base")) (Some 20000%Z) (Some 100) (Some (1 / 100)) (Some 0);
    mk_entry (Some (ustr_of "W3")) (Some (ustr_of "base")) (Some 20000%Z) (Some 100) (Some (1 / 100)) (Some 0);
    mk_entry (Some (ustr_of " W4 ")) (Some (ustr_of "base")) (Some 20000%Z) (Some 100) (Some (1 / 100)) (Some 0) ].

Definition example_tuple (name : string) : db_tuple :=
  (ustr_of name, ustr_of "base", 20000%Z, 100, 1 / 100, 0).

(** C7 (amended): [insert_cases] drops the rows with a missing required
    cell, skips the rows whose [well_name] or [case_label] is empty after
    stripping Python whitespace (a name made only of U+00A0 and U+3000 is
    skipped too), and offers the remaining rows, names stripped, to the
    database in batch order: each one is appended to the table and counted
    if its [INSERT] succeeds on the table reached so far, and reported with
    [st.error] otherwise, the batch going on either way; so the table grows
    by exactly the counted rows and every valid row is either counted or
    reported. The count is returned unless [conn.commit()] raises
    something other than [sqlite3.ProgrammingError]. With a database that
    accepts the rows and a successful commit, the 4-row batch with one empty
    [well_name] adds exactly 3 rows and returns 3. *)
Theorem insert_cases_skips_invalid {E : Type}
    (execute : list db_tuple -> db_tuple -> option E)
    (commit : list db_tuple -> commit_result)
    (table : list db_tuple) (entries : list entry) :
  let ok := prepared (dropna_required entries) in
  (forall t, In t ok <->
     exists e w l d q dd bb,
       In e entries /\ en_well_name e = Some w /\ en_case_label e = Some l /\
       en_eff_date e = Some d /\ en_qi e = Some q /\ en_di e = Some dd /\
       en_b e = Some bb /\ is_empty (strip w) = false /\
       is_empty (strip l) = false /\ t = (strip w, strip l, d, q, dd, bb)) /\
  prepared [([160; 12288]%N, ustr_of "base", 20000%Z, 100, 1 / 100, 0)] = [] /\
  (exists T' n errs,
     db_run execute table ok T' n errs /\
     (exists added, T' = table ++ added /\ List.length added = n /\
        (n + List.length errs)%nat = List.length ok /\
        (forall t, In t added -> In t ok)) /\
     insert_cases E execute commit table entries
       = match commit T' with
         | CommitRaises => InsertRaised T' errs
         | _ => InsertDone T' n errs
         end) /\
  insert_cases E (fun _ _ => None) (fun _ => Committed) table example_batch
    = InsertDone (table ++ [example_tuple "W1"; example_tuple "W3"; example_tuple "W4"]) 3 [].
Proof.
  cbv zeta. split; [|split; [reflexivity | split]].
  - intros t. rewrite prepared_In. split.
    + intros (w & l & d & q & dd & bb & Hin & Hw & Hl & ->).
      apply dropna_required_In in Hin
        as (e & w' & l' & d' & q' & dd' & bb' & He & H1 & H2 & H3 & H4 & H5 & H6 & Heq).
      injection Heq as <- <- <- <- <- <-.
      exists e, w, l, d, q, dd, bb. tauto.
    + intros (e & w & l & d & q & dd & bb & He & H1 & H2 & H3 & H4 & H5 & H6 & Hw & Hl & ->).
      exists w, l, d, q, dd, bb. split; [|tauto].
      apply dropna_required_In. exists e, w, l, d, q, dd, bb. tauto.
  - destruct (insert_loop_run execute (dropna_required entries) table 0 [])
      as (T' & n & errs & Hr & Hl).
    exists T', n, errs. split; [exact Hr|]. split; [exact (db_run_shape _ _ _ _ _ _ Hr)|].
    unfold insert_cases. rewrite Hl. simpl. destruct (commit T'); reflexivity.
  - unfold insert_cases. simpl. rewrite <- !app_assoc. reflexivity.
Qed.

(** Equality of code-point strings. *)
Fixpoint ustr_eqb (s1 s2 : ustr) : bool :=
  match s1, s2 with
  | [], [] => true
  | a :: r1, c :: r2 => N.eqb a c && ustr_eqb r1 r2
  | _, _ => false
  end.

(** A table with [UNIQUE(well_name)]: an [INSERT] of a well already present
    raises. *)
Definition unique_name_execute (T : list db_tuple) (t : db_tuple) : option unit :=
  if existsb (fun u => ustr_eqb (fst (fst (fst (fst (fst u))))) (fst (fst (fst (fst (fst t)))))) T
  then Some tt else None.

(** C7 as stated fails when the database refuses an [INSERT]: the code
    catches [sqlite3.Error], reports it and goes on, so a valid remaining
    row is not persisted. With a table that already holds well [W3] under a
    [UNIQUE(well_name)] constraint, the 4-row batch with one empty
    [well_name] has 3 valid rows but only 2 are added, 2 is returned and one
    error is reported; and when [conn.commit()] raises
    [sqlite3.OperationalError] no count is returned at all. *)
Lemma insert_cases_rejected_row_counterexample :
  List.length (prepared (dropna_required example_batch)) = 3%nat /\
  insert_cases unit unique_name_execute (fun _ => Committed) [example_tuple "W3"] example_batch
    = InsertDone [example_tuple "W3"; example_tuple "W1"; example_tuple "W4"] 2 [tt] /\
  insert_cases unit (fun _ _ => None) (fun _ => CommitRaises) [] example_batch
    = InsertRaised [example_tuple "W1"; example_tuple "W3"; example_tuple "W4"] [].
Proof. repeat split; reflexivity. Qed.

(* ================================================================== *)
(** * Further properties of [cases_trial.py] *)

(** ** Profiles *)

Lemma In_date_range (s e d : date) :
  In d (date_range s e) <-> (s <= d <= e)%Z.
Proof.
  unfold date_range. rewrite In_days_from.
  destruct (Z.le_gt_cases 0 (e - s + 1)) as [H|H].
  - rewrite Z2Nat.id by exact H. lia.
  - replace (Z.to_nat (e - s + 1)) with O by lia. simpl. lia.
Qed.

Lemma strongly_sorted_fst_filter (f : date * R -> bool) (l : list (date * R)) :
  StronglySorted Z.lt (map fst l) -> StronglySorted Z.lt (map fst (filter f l)).
Proof.
  induction l as [|x l IH]; simpl; intros H; [constructor|].
  inversion H as [|? ? Hs Hall]; subst.
  destruct (f x); simpl; [|apply IH; assumption].
  constructor; [apply IH; assumption|].
  rewrite Forall_forall in *. intros y Hy. apply Hall.
  apply in_map_iff in Hy as [z [<- Hz]]. apply filter_In in Hz as [Hz _].
  apply in_map. assumption.
Qed.

Lemma days_from_app (d : date) (n m : nat) :
  days_from d (n + m) = days_from d n ++ days_from (d + Z.of_nat n)%Z m.
Proof.
  revert d. induction n as [|n IH]; intros d; simpl.
  - rewrite Z.add_0_r. reflexivity.
  - rewrite IH. f_equal. f_equal. f_equal. lia.
Qed.

Lemma cumsum_from_app (acc : R) (l1 l2 : list (date * R)) :
  exists acc', cumsum_from acc (l1 ++ l2) = cumsum_from acc l1 ++ cumsum_from acc' l2.
Proof.
  revert acc. induction l1 as [|[d r] l1 IH]; intros acc; simpl.
  - exists acc. reflexivity.
  - destruct (IH (acc + r)) as [acc' H]. exists acc'. rewrite H. reflexivity.
Qed.

Lemma days_from_shift (d k : date) (n : nat) :
  days_from (d + k)%Z n = map (fun x => (x + k)%Z) (days_from d n).
Proof.
  revert d. induction n as [|n IH]; intros d; simpl; [reflexivity|].
  rewrite <- IH. f_equal. f_equal. lia.
Qed.

Definition shift_row (k : date) (r : prow) : prow :=
  mk_prow (p_date r + k)%Z (p_rate r) (p_cum r).

Lemma cumsum_from_shift (k : date) (acc : R) (l : list (date * R)) :
  cumsum_from acc (map (fun x => ((fst x + k)%Z, snd x)) l)
    = map (shift_row k) (cumsum_from acc l).
Proof.
  revert acc. induction l as [|[d r] l IH]; intros acc; simpl; [reflexivity|].
  rewrite IH. reflexivity.
Qed.

(** The rows of a profile are in strictly increasing date order, one per
    day at most, and every row lies in the requested range [start_date ..
    end_date]. *)
Theorem make_profile_dates_in_range (s e : date) (qi di b q : R) :
  Sorted Z.lt (map p_date (make_profile s e qi di b q)) /\
  (forall r, In r (make_profile s e qi di b q) -> (s <= p_date r <= e)%Z).
Proof.
  split.
  - rewrite profile_dates, make_profile_samples. apply StronglySorted_Sorted.
    apply strongly_sorted_fst_filter. rewrite raw_samples_dates.
    apply Sorted_StronglySorted; [intros x y z; lia|]. apply days_from_sorted.
  - intros r Hr.
    assert (H : In (p_date r) (map fst (rate_samples (make_profile s e qi di b q))))
      by (rewrite <- profile_dates; apply in_map; exact Hr).
    rewrite make_profile_samples in H. apply in_map_iff in H as [x [Hx Hin]].
    apply filter_In in Hin as [Hin _]. apply (in_map fst) in Hin.
    rewrite raw_samples_dates, Hx in Hin. apply In_date_range. exact Hin.
Qed.

Lemma length_days_from (d : date) (n : nat) : List.length (days_from d n) = n.
Proof.
  revert d. induction n as [|n IH]; intros d; simpl; [reflexivity|].
  rewrite IH. reflexivity.
Qed.

(** With a non-negative initial rate, non-negative decline parameters and
    an abandonment rate of at most 0 nothing is dropped: the profile has
    exactly one row per day of the range. *)
Theorem make_profile_no_abandonment (s e : date) (qi di b q : R) :
  0 <= qi -> 0 <= di -> 0 <= b -> q <= 0 ->
  map p_date (make_profile s e qi di b q) = date_range s e /\
  List.length (make_profile s e qi di b q) = Z.to_nat (e - s + 1).
Proof.
  intros Hq _ _ Hq0.
  assert (Hk : drop_abandoned q (raw_samples s e qi di b) = raw_samples s e qi di b).
  { unfold drop_abandoned. apply filter_all_true. intros x Hx.
    unfold raw_samples in Hx. apply in_map_iff in Hx as [d [<- _]]. simpl.
    apply negb_true_iff, below_false.
    pose proof (arps_rate_nonneg (IZR (d - s)) qi di b Hq). lra. }
  split.
  - rewrite profile_dates, make_profile_samples, Hk. apply raw_samples_dates.
  - rewrite <- (length_map p_date), profile_dates, make_profile_samples, Hk,
      raw_samples_dates.
    unfold date_range. apply length_days_from.
Qed.

Lemma make_profile_no_abandonment_witness :
  (0 <= 100 /\ 0 <= 1 / 100 /\ 0 <= 1 / 2 /\ 0 <= 0) /\
  (map p_date (make_profile 0%Z 9%Z 100 (1 / 100) (1 / 2) 0) = date_range 0%Z 9%Z /\
   List.length (make_profile 0%Z 9%Z 100 (1 / 100) (1 / 2) 0) = Z.to_nat (9 - 0 + 1)).
Proof.
  split; [lra|]. apply make_profile_no_abandonment; lra.
Defined.

(** Extending the forecast horizon never changes the rows already there:
    the profile up to [end_date] is a prefix of the profile up to any later
    [end_date'] (same rates and cumulatives). *)
Theorem make_profile_horizon_prefix (s e e' : date) (qi di b q : R) :
  (e <= e')%Z ->
  exists tail, make_profile s e' qi di b q = make_profile s e qi di b q ++ tail.
Proof.
  intros He.
  assert (Hn : Z.to_nat (e' - s + 1)
               = (Z.to_nat (e - s + 1) + (Z.to_nat (e' - s + 1) - Z.to_nat (e - s + 1)))%nat)
    by lia.
  unfold make_profile, raw_samples, date_range. rewrite Hn, days_from_app.
  rewrite map_app. unfold drop_abandoned. rewrite filter_app.
  match goal with |- exists _, cumsum_from 0 (?l1 ++ ?l2) = _ =>
    destruct (cumsum_from_app 0 l1 l2) as [acc' H] end.
  eexists. exact H.
Qed.

Lemma make_profile_horizon_prefix_witness :
  (5 <= 9)%Z /\
  exists tail, make_profile 0%Z 9%Z 100 (1 / 100) 0 50
               = make_profile 0%Z 5%Z 100 (1 / 100) 0 50 ++ tail.
Proof.
  split; [lia|]. apply (make_profile_horizon_prefix 0%Z 5%Z 9%Z 100 (1 / 100) 0 50). lia.
Defined.

(** Raising the abandonment rate only removes rows: the samples kept with a
    threshold [q2 >= q1] are those kept with [q1] that also reach [q2]. *)
Theorem make_profile_threshold_monotone (s e : date) (qi di b q1 q2 : R) :
  q1 <= q2 ->
  rate_samples (make_profile s e qi di b q2)
    = filter (fun sm => negb (below q2 (snd sm)))
             (rate_samples (make_profile s e qi di b q1)).
Proof.
  intros Hq. rewrite !make_profile_samples. unfold drop_abandoned.
  induction (raw_samples s e qi di b) as [|[d r] l IH]; simpl; [reflexivity|].
  destruct (below q1 r) eqn:B1; simpl.
  - assert (B2 : below q2 r = true) by (apply below_true; apply below_true in B1; lra).
    rewrite B2. simpl. exact IH.
  - destruct (below q2 r); simpl; [exact IH | f_equal; exact IH].
Qed.

Lemma make_profile_threshold_monotone_witness :
  10 <= 50 /\
  rate_samples (make_profile 0%Z 30%Z 100 (1 / 10) 0 50)
    = filter (fun sm => negb (below 50 (snd sm)))
             (rate_samples (make_profile 0%Z 30%Z 100 (1 / 10) 0 10)).
Proof.
  split; [lra|]. apply make_profile_threshold_monotone. lra.
Defined.

(** A profile depends only on the elapsed days: moving both dates by [k]
    days moves every row by [k] days and keeps its rate and cumulative. *)
Theorem make_profile_shift (s e k : date) (qi di b q : R) :
  make_profile (s + k)%Z (e + k)%Z qi di b q
    = map (shift_row k) (make_profile s e qi di b q).
Proof.
  unfold make_profile, raw_samples, date_range.
  replace (e + k - (s + k) + 1)%Z with (e - s + 1)%Z by lia.
  rewrite days_from_shift, map_map, <- cumsum_from_shift. f_equal.
  unfold drop_abandoned.
  induction (days_from s (Z.to_nat (e - s + 1))) as [|d l IH]; simpl; [reflexivity|].
  replace (d + k - (s + k))%Z with (d - s)%Z by lia.
  destruct (below q (arps_rate (IZR (d - s)) qi di b)); simpl; rewrite IH; reflexivity.
Qed.

(** ** EUR and the cumulative column *)

Lemma cumsum_from_last (acc : R) (l : list (date * R)) (d : prow) :
  l <> [] -> p_cum (last (cumsum_from acc l) d) = acc + sumR (map snd l).
Proof.
  revert acc d. induction l as [|[x r] l IH]; intros acc d H; [contradiction|].
  destruct l as [|y l].
  - simpl. ring.
  - replace (cumsum_from acc ((x, r) :: y :: l))
      with (mk_prow x r (acc + r) :: cumsum_from (acc + r) (y :: l)) by reflexivity.
    rewrite last_cons_default, IH by discriminate.
    simpl. ring.
Qed.

Lemma trapz_sum (y0 : R) (ys : list R) :
  trapz (y0 :: ys) = sumR (y0 :: ys) - (y0 + last (y0 :: ys) y0) / 2.
Proof.
  destruct ys as [|y ys].
  - simpl. lra.
  - destruct (exists_last (l := y :: ys)) as [mid [yl Hl]]; [discriminate|].
    rewrite Hl, trapz_ends.
    replace (y0 :: mid ++ [yl]) with ((y0 :: mid) ++ [yl]) by reflexivity.
    rewrite last_last, sumR_app. simpl. lra.
Qed.

Lemma last_map_default {A B} (f : A -> B) (l : list A) (d : A) :
  last (map f l) (f d) = f (last l d).
Proof.
  revert d. induction l as [|x l IH]; intros d; [reflexivity|].
  simpl map. rewrite !last_cons_default. apply IH.
Qed.

Lemma profile_cum_last (p : profile) (l : list (date * R)) (r0 : prow) (rest : profile) :
  p = cumsum_from 0 l -> p = r0 :: rest ->
  p_cum (last (r0 :: rest) r0) = sumR (map p_rate (r0 :: rest)).
Proof.
  intros Hp Hc. rewrite <- Hc, Hp, cumsum_from_last.
  - rewrite rates_of_profile, rate_samples_cumsum. ring.
  - intros ->. rewrite Hp in Hc. discriminate.
Qed.

(** For a non-empty profile the EUR equals the cumulative of its last row
    minus half the first and half the last rate: the trapezoid rule and the
    running sum differ only at the two ends. *)
Theorem eur_from_last_cum (s e : date) (qi di b q : R) (r0 : prow) (rest : profile) :
  0 <= di -> 0 <= b ->
  make_profile s e qi di b q = r0 :: rest ->
  eur_from_profile (r0 :: rest)
    = p_cum (last (r0 :: rest) r0) - (p_rate r0 + p_rate (last (r0 :: rest) r0)) / 2.
Proof.
  intros _ _ H.
  rewrite (profile_cum_last (make_profile s e qi di b q)
             (drop_abandoned q (raw_samples s e qi di b)) r0 rest eq_refl H).
  unfold eur_from_profile. simpl map. rewrite trapz_sum, <- (last_map_default p_rate (r0 :: rest) r0).
  reflexivity.
Qed.

Lemma eur_from_last_cum_witness :
  let r0 := mk_prow 0%Z (arps_rate 0 100 (1 / 10) (1 / 2))
                    (0 + arps_rate 0 100 (1 / 10) (1 / 2)) in
  let r1 := mk_prow 1%Z (arps_rate 1 100 (1 / 10) (1 / 2))
                    (0 + arps_rate 0 100 (1 / 10) (1 / 2) + arps_rate 1 100 (1 / 10) (1 / 2)) in
  (0 <= 1 / 10 /\ 0 <= 1 / 2 /\
   make_profile 0%Z 1%Z 100 (1 / 10) (1 / 2) 0 = [r0; r1]) /\
  eur_from_profile [r0; r1]
    = p_cum (last [r0; r1] r0) - (p_rate r0 + p_rate (last [r0; r1] r0)) / 2.
Proof.
  cbv zeta.
  assert (Hp : make_profile 0%Z 1%Z 100 (1 / 10) (1 / 2) 0
               = [mk_prow 0%Z (arps_rate 0 100 (1 / 10) (1 / 2))
                          (0 + arps_rate 0 100 (1 / 10) (1 / 2));
                  mk_prow 1%Z (arps_rate 1 100 (1 / 10) (1 / 2))
                          (0 + arps_rate 0 100 (1 / 10) (1 / 2)
                           + arps_rate 1 100 (1 / 10) (1 / 2))]).
  { rewrite make_profile_keep_all by lra. reflexivity. }
  split; [split; [lra | split; [lra | exact Hp]]|].
  apply (eur_from_last_cum 0%Z 1%Z 100 (1 / 10) (1 / 2) 0); [lra | lra | exact Hp].
Defined.



Lemma sumR_nonneg (ys : list R) : Forall (fun y => 0 <= y) ys -> 0 <= sumR ys.
Proof.
  induction 1; simpl; lra.
Qed.





(** ** Forecast outputs *)

Lemma label_block_None (cases : list fcase) (end_date : date) (q : R) (lbl : string) :
  label_block cases end_date q lbl = None <-> label_cases cases lbl = [].
Proof.
  unfold label_block. destruct (label_cases cases lbl); split; congruence.
Qed.

Lemma label_blocks_None (cases : list fcase) (end_date : date) (q : R)
    (labels : list string) :
  label_blocks cases end_date q labels = None <->
  exists l, In l labels /\ label_cases cases l = [].
Proof.
  induction labels as [|l labels IH]; cbn [label_blocks].
  - split; [discriminate | intros [l [[] _]]].
  - destruct (label_block cases end_date q l) as [[[e1 r1] s1]|] eqn:Hb.
    + assert (Hl : label_cases cases l <> []).
      { intros Hc. apply (proj2 (label_block_None cases end_date q l)) in Hc. congruence. }
      destruct (label_blocks cases end_date q labels) as [[[e2 r2] s2]|].
      * split; [discriminate|]. intros [x [[<-|Hx] Hc]]; [contradiction|].
        assert (Hn : Some (e2, r2, s2) = None) by (apply IH; exists x; split; assumption).
        discriminate.
      * split; [intros _|reflexivity].
        destruct (proj1 IH eq_refl) as [x [Hx Hc]]. exists x. split; [right|]; assumption.
    + split; [intros _|reflexivity].
      apply label_block_None in Hb. exists l. split; [left; reflexivity | exact Hb].
Qed.

Lemma key_eqb_true (k1 k2 : date * string) : key_eqb k1 k2 = true <-> k1 = k2.
Proof.
  destruct k1 as [d1 l1], k2 as [d2 l2]. unfold key_eqb. simpl.
  rewrite andb_true_iff, Z.eqb_eq, String.eqb_eq. split.
  - intros [-> ->]. reflexivity.
  - intros H. injection H as -> ->. split; reflexivity.
Qed.

Lemma keys_distinct_NoDup (ks : list (date * string)) :
  keys_distinct ks = true <-> NoDup ks.
Proof.
  induction ks as [|k ks IH]; simpl.
  - split; [intros _; constructor | reflexivity].
  - rewrite andb_true_iff, negb_true_iff, IH. split.
    + intros [Hn Hd]. constructor; [|exact Hd]. intros Hin.
      assert (He : existsb (key_eqb k) ks = true).
      { apply existsb_exists. exists k. split; [exact Hin | apply key_eqb_true; reflexivity]. }
      congruence.
    + intros Hn. inversion Hn as [|? ? Hk Hd]; subst. split; [|exact Hd].
      destruct (existsb (key_eqb k) ks) eqn:E; [|reflexivity].
      apply existsb_exists in E as [k' [Hk' Hkk]]. apply key_eqb_true in Hkk.
      subst k'. contradiction.
Qed.

Lemma NoDup_app_disjoint {A : Type} (l1 l2 : list A) (x : A) :
  NoDup (l1 ++ l2) -> In x l1 -> In x l2 -> False.
Proof.
  induction l1 as [|a l1 IH]; simpl; intros H H1 H2; [destruct H1|].
  inversion H as [|? ? Ha Hd]; subst. destruct H1 as [<-|H1].
  - apply Ha. apply in_or_app. right. exact H2.
  - exact (IH Hd H1 H2).
Qed.

(** The pivot keys contributed by one label: its summed dates. *)
Definition sum_keys (cases : list fcase) (end_date : date) (q : R) (l : string)
    : list (date * string) :=
  map (fun d => (d, l)) (map fst (label_series cases l end_date q)).

Lemma label_blocks_keys (cases : list fcase) (end_date : date) (q : R)
    (labels : list string) es rs ss :
  label_blocks cases end_date q labels = Some (es, rs, ss) ->
  map pivot_key ss = flat_map (sum_keys cases end_date q) labels.
Proof.
  revert es rs ss. induction labels as [|l labels IH]; intros es rs ss H.
  - simpl in H. injection H as _ _ <-. reflexivity.
  - cbn [label_blocks] in H.
    destruct (label_block cases end_date q l) as [[[e1 r1] s1]|] eqn:Hb; [|discriminate].
    destruct (label_blocks cases end_date q labels) as [[[e2 r2] s2]|] eqn:Hr2;
      [|discriminate].
    injection H as _ _ <-. rewrite map_app. simpl. rewrite (IH _ _ _ eq_refl).
    f_equal. unfold label_block in Hb.
    destruct (label_cases cases l) as [|c0 cs]; [discriminate|].
    injection Hb as _ _ <-. unfold sum_keys. rewrite !map_map. reflexivity.
Qed.

Lemma flat_keys_NoDup (D : string -> list date) (HD : forall l, NoDup (D l))
    (labels : list string) :
  NoDup (flat_map (fun l => map (fun d => (d, l)) (D l)) labels) <->
  (forall l, (1 < count_occ string_dec labels l)%nat -> D l = []).
Proof.
  induction labels as [|l0 ls IH]; simpl.
  - split; [intros _ l H; lia | intros _; constructor].
  - split.
    + intros Hn l Hc.
      assert (Hls := NoDup_app_remove_l _ _ Hn).
      destruct (string_dec l0 l) as [Heq|Hne].
      * subst l. assert (Hin : In l0 ls) by (apply (count_occ_In string_dec); lia).
        destruct (D l0) as [|d ds] eqn:Ed; [reflexivity|exfalso].
        apply (NoDup_app_disjoint _ _ (d, l0) Hn).
        -- left. reflexivity.
        -- apply in_flat_map. exists l0. split; [exact Hin|].
           rewrite Ed. left. reflexivity.
      * apply (proj1 IH Hls). exact Hc.
    + intros H. apply NoDup_app.
      * apply (NoDup_map_inv fst). rewrite map_map. simpl. rewrite map_id. apply HD.
      * apply IH. intros l Hc. apply H. destruct (string_dec l0 l); lia.
      * intros a Ha1 Ha2. apply in_map_iff in Ha1 as [d [<- Hd]].
        apply in_flat_map in Ha2 as [l [Hl Hm]].
        apply in_map_iff in Hm as [d' [Heq _]]. injection Heq as _ Heq. subst l.
        assert (H0 : D l0 = []).
        { apply H. destruct (string_dec l0 l0) as [_|Hne]; [|contradiction].
          apply (count_occ_In string_dec) in Hl. lia. }
        rewrite H0 in Hd. destruct Hd.
Qed.

Lemma sum_keys_flat (cases : list fcase) (end_date : date) (q : R) (labels : list string) :
  NoDup (flat_map (sum_keys cases end_date q) labels) <->
  (forall l, (1 < count_occ string_dec labels l)%nat -> label_series cases l end_date q = []).
Proof.
  unfold sum_keys.
  rewrite (flat_keys_NoDup (fun l => map fst (label_series cases l end_date q))).
  - split; intros H l Hc.
    + apply map_eq_nil with (f := fst). exact (H l Hc).
    + rewrite (H l Hc). reflexivity.
  - intros l. unfold label_series. rewrite groupby_date_sum_keys.
    apply sorted_lt_nodup, group_keys_sorted.
Qed.

(** [forecast_outputs] raises exactly when some labels are selected and
    either one of them has no case row ([df_sel["well_name"].iloc[0]] on an
    empty selection) or a label selected twice has a non-empty summed series
    (its rows repeat a (Date, case_label) pair, on which [sum_df.pivot]
    raises); every other selection is rendered. *)
Theorem forecast_outputs_raises (cases : list fcase) (labels : list string)
    (end_date : date) (q : R) :
  forecast_outputs cases labels end_date q = Raised <->
  labels <> [] /\
  ((exists l, In l labels /\ label_cases cases l = []) \/
   (exists l, (1 < count_occ string_dec labels l)%nat /\ label_series cases l end_date q <> [])).
Proof.
  unfold forecast_outputs. destruct labels as [|l0 ls].
  - split; [discriminate | intros [H _]; exfalso; apply H; reflexivity].
  - destruct (label_blocks cases end_date q (l0 :: ls)) as [[[es rs] ss]|] eqn:Hb.
    + assert (Hc : ~ exists l, In l (l0 :: ls) /\ label_cases cases l = []).
      { intros Hx. apply (proj2 (label_blocks_None cases end_date q (l0 :: ls))) in Hx.
        congruence. }
      rewrite (label_blocks_keys _ _ _ _ _ _ _ Hb).
      destruct (keys_distinct (flat_map (sum_keys cases end_date q) (l0 :: ls))) eqn:Hk.
      * apply keys_distinct_NoDup in Hk. pose proof (proj1 (sum_keys_flat cases end_date q (l0 :: ls)) Hk) as Hk'.
        split; [discriminate|]. intros [_ [H|[l [H1 H2]]]]; [contradiction|].
        exfalso. exact (H2 (Hk' l H1)).
      * split; [intros _ | reflexivity]. split; [discriminate|]. right.
        set (f := fun l => Nat.ltb 1 (count_occ string_dec (l0 :: ls) l)
                           && Nat.ltb 0 (List.length (label_series cases l end_date q))).
        destruct (existsb f (l0 :: ls)) eqn:E.
        -- apply existsb_exists in E as [l [_ Hf]]. unfold f in Hf.
           apply andb_true_iff in Hf as [H1 H2].
           apply Nat.ltb_lt in H1, H2. exists l. split; [exact H1|].
           intros He. rewrite He in H2. simpl in H2. lia.
        -- exfalso. assert (Hn : keys_distinct (flat_map (sum_keys cases end_date q)
                                                  (l0 :: ls)) = true).
           { apply keys_distinct_NoDup, sum_keys_flat. intros l H1.
             assert (Hl : In l (l0 :: ls)) by (apply (count_occ_In string_dec); lia).
             destruct (f l) eqn:Ef.
             - assert (Ht : existsb f (l0 :: ls) = true)
                 by (apply existsb_exists; exists l; split; assumption).
               congruence.
             - unfold f in Ef. apply andb_false_iff in Ef as [Ef|Ef];
                 apply Nat.ltb_ge in Ef; [lia|].
               apply length_zero_iff_nil. lia. }
           congruence.
    + split; [intros _ | reflexivity]. split; [discriminate|]. left.
      exact (proj1 (label_blocks_None cases end_date q (l0 :: ls)) Hb).
Qed.

Lemma ascii_compare_refl (a : ascii) : Ascii.compare a a = Eq.
Proof. unfold Ascii.compare. apply N.compare_refl. Qed.

Lemma string_compare_refl (s : string) : String.compare s s = Eq.
Proof. induction s as [|a s IH]; simpl; [reflexivity|]. rewrite ascii_compare_refl. exact IH. Qed.

Lemma string_compare_trans (s1 s2 s3 : string) :
  String.compare s1 s2 = Lt -> String.compare s2 s3 = Lt -> String.compare s1 s3 = Lt.
Proof.
  revert s2 s3. induction s1 as [|a s1 IH]; intros [|b s2] [|c s3] H1 H2;
    simpl in *; try discriminate; try reflexivity.
  destruct (Ascii.compare a b) eqn:Eab; try discriminate;
    destruct (Ascii.compare b c) eqn:Ebc; try discriminate.
  - apply Ascii.compare_eq_iff in Eab, Ebc. subst. rewrite ascii_compare_refl.
    exact (IH s2 s3 H1 H2).
  - apply Ascii.compare_eq_iff in Eab. subst. rewrite Ebc. reflexivity.
  - apply Ascii.compare_eq_iff in Ebc. subst. rewrite Eab. reflexivity.
  - assert (Eac : Ascii.compare a c = Lt).
    { unfold Ascii.compare in *. apply N.compare_lt_iff.
      apply N.compare_lt_iff in Eab. apply N.compare_lt_iff in Ebc.
      exact (N.lt_trans _ _ _ Eab Ebc). }
    rewrite Eac. reflexivity.
Qed.

Definition slt (a b : string) : Prop := String.ltb a b = true.

Lemma slt_compare (a b : string) : slt a b <-> String.compare a b = Lt.
Proof. unfold slt, String.ltb. destruct (String.compare a b); split; congruence. Qed.

Lemma slt_trans (a b c : string) : slt a b -> slt b c -> slt a c.
Proof. rewrite !slt_compare. apply string_compare_trans. Qed.

Lemma slt_irrefl (a : string) : ~ slt a a.
Proof. rewrite slt_compare, string_compare_refl. discriminate. Qed.

Lemma insert_label_In (l x : string) (ls : list string) :
  In x (insert_label l ls) <-> x = l \/ In x ls.
Proof.
  induction ls as [|y ls IH]; simpl; [intuition congruence|].
  destruct (String.eqb l y) eqn:E1;
    [apply String.eqb_eq in E1; subst; simpl; intuition congruence|].
  destruct (String.ltb l y); simpl; [intuition congruence|].
  rewrite IH. intuition congruence.
Qed.

Lemma insert_label_after (l y : string) :
  String.eqb l y = false -> String.ltb l y = false -> slt y l.
Proof.
  intros E1 E2. apply slt_compare. rewrite String.compare_antisym.
  unfold String.ltb in E2. destruct (String.compare l y) eqn:C; try discriminate.
  - apply String.compare_eq_iff in C. subst. rewrite String.eqb_refl in E1. discriminate.
  - reflexivity.
Qed.

Lemma insert_label_head (x l : string) (ls : list string) :
  HdRel slt x ls -> slt x l -> HdRel slt x (insert_label l ls).
Proof.
  intros H Hxl. destruct ls as [|y ls]; simpl; [constructor; assumption|].
  inversion H; subst.
  destruct (String.eqb l y); [constructor; assumption|].
  destruct (String.ltb l y); constructor; assumption.
Qed.

Lemma insert_label_sorted (l : string) (ls : list string) :
  Sorted slt ls -> Sorted slt (insert_label l ls).
Proof.
  induction ls as [|y ls IH]; intros H; simpl; [repeat constructor|].
  destruct (String.eqb l y) eqn:E1; [assumption|].
  destruct (String.ltb l y) eqn:E2.
  - constructor; [assumption|]. constructor. exact E2.
  - inversion H; subst. constructor; [apply IH; assumption|].
    apply insert_label_head; [assumption|]. apply insert_label_after; assumption.
Qed.

Lemma sorted_slt_nodup (ls : list string) : Sorted slt ls -> NoDup ls.
Proof.
  intros H. apply Sorted_StronglySorted in H; [|exact slt_trans].
  induction H as [|x ls Hs IH Hall]; constructor; [|assumption].
  intros Hin. rewrite Forall_forall in Hall. exact (slt_irrefl x (Hall x Hin)).
Qed.

Lemma case_keys_In (ls : list string) (x : string) :
  In x (fold_right insert_label [] ls) <-> In x ls.
Proof.
  induction ls as [|y ls IH]; simpl; [tauto|]. rewrite insert_label_In, IH. intuition.
Qed.

Lemma case_keys_sorted (ls : list string) : Sorted slt (fold_right insert_label [] ls).
Proof.
  induction ls as [|y ls IH]; simpl; [constructor | apply insert_label_sorted; exact IH].
Qed.

Lemma sumR_indicator_label (a : string) (v : R) (ks : list string) :
  NoDup ks -> In a ks ->
  sumR (map (fun k => if String.eqb a k then v else 0) ks) = v.
Proof.
  induction ks as [|k ks IH]; intros Hnd Hin; [destruct Hin|].
  inversion Hnd as [|? ? Hk Hks]; subst. simpl.
  destruct (String.eqb a k) eqn:E.
  - apply String.eqb_eq in E. subst.
    assert (Hz : forall ks', ~ In k ks' ->
              sumR (map (fun k' => if String.eqb k k' then v else 0) ks') = 0).
    { induction ks' as [|k' ks' IH']; intros Hn; [reflexivity|]. simpl.
      destruct (String.eqb k k') eqn:E';
        [apply String.eqb_eq in E'; subst; exfalso; apply Hn; left; reflexivity|].
      rewrite IH'; [ring|]. intros Hi; apply Hn; right; assumption. }
    rewrite Hz by assumption. ring.
  - destruct Hin as [->|Hin]; [rewrite String.eqb_refl in E; discriminate|].
    rewrite IH by assumption. ring.
Qed.

Lemma eur_total_over_keys (rows : list eur_row) (ks : list string) :
  NoDup ks -> (forall e, In e rows -> In (e_case e) ks) ->
  sumR (map (fun l => eur_total l rows) ks) = sumR (map e_eur rows).
Proof.
  intros Hnd. induction rows as [|e rows IH]; intros Hk.
  - simpl. clear Hnd Hk. induction ks as [|k ks IHk]; simpl; [reflexivity|].
    rewrite IHk. ring.
  - replace (map (fun l => eur_total l (e :: rows)) ks)
      with (map (fun l => (if String.eqb (e_case e) l then e_eur e else 0)
                          + eur_total l rows) ks)
      by (apply map_ext; intros l; simpl; destruct (String.eqb (e_case e) l); ring).
    rewrite sumR_map_plus, sumR_indicator_label, IH; [simpl; ring | | assumption |].
    + intros x Hx. apply Hk. right. exact Hx.
    + apply Hk. left. reflexivity.
Qed.

Lemma label_block_eur_cases (cases : list fcase) (end_date : date) (q : R) (l : string)
    e1 r1 s1 :
  label_block cases end_date q l = Some (e1, r1, s1) ->
  forall x, In x (map e_case e1) <-> x = l.
Proof.
  unfold label_block. destruct (label_cases cases l) as [|c0 cs]; [discriminate|].
  intros H. injection H as He _ _. subst e1. intros x. simpl.
  rewrite map_map, in_map_iff. simpl. split.
  - intros [H|[c [H _]]]; symmetry; assumption.
  - intros ->. left. reflexivity.
Qed.

Lemma label_blocks_eur_cases (cases : list fcase) (end_date : date) (q : R)
    (labels : list string) es rs ss :
  label_blocks cases end_date q labels = Some (es, rs, ss) ->
  forall x, In x (map e_case es) <-> In x labels.
Proof.
  revert es rs ss. induction labels as [|l labels IH]; intros es rs ss H x.
  - simpl in H. injection H as <- _ _. simpl. tauto.
  - cbn [label_blocks] in H.
    destruct (label_block cases end_date q l) as [[[e1 r1] s1]|] eqn:Hb; [|discriminate].
    destruct (label_blocks cases end_date q labels) as [[[e2 r2] s2]|] eqn:Hr;
      [|discriminate].
    injection H as <- _ _. rewrite map_app, in_app_iff,
      (label_block_eur_cases _ _ _ _ _ _ _ Hb), (IH _ _ _ eq_refl). simpl.
    intuition congruence.
Qed.

(** The per-case total table of [forecast_outputs] has one row per selected
    label, in increasing string order without repetition, and its totals
    add up to the sum of the per-well EURs. *)
Theorem forecast_outputs_case_totals (cases : list fcase) (labels : list string)
    (end_date : date) (q : R) (o : outputs) :
  forecast_outputs cases labels end_date q = Rendered o ->
  (forall l, In l (map fst (per_case_total o)) <-> In l labels) /\
  Sorted slt (map fst (per_case_total o)) /\
  NoDup (map fst (per_case_total o)) /\
  sumR (map snd (per_case_total o)) = sumR (map e_eur (per_well_eur o)).
Proof.
  unfold forecast_outputs. intros H. destruct labels as [|l0 ls]; [discriminate|].
  destruct (label_blocks cases end_date q (l0 :: ls)) as [[[es rs] ss]|] eqn:Hb;
    [|discriminate].
  destruct (keys_distinct (map pivot_key ss)) eqn:Hk; [|discriminate].
  injection H as <-. cbn [per_case_total per_well_eur]. unfold total_eur.
  rewrite !map_map. cbn [fst snd]. rewrite map_id.
  split; [|split; [|split]].
  - intros l. rewrite case_keys_In. exact (label_blocks_eur_cases _ _ _ _ _ _ _ Hb l).
  - apply case_keys_sorted.
  - apply sorted_slt_nodup, case_keys_sorted.
  - apply eur_total_over_keys; [apply sorted_slt_nodup, case_keys_sorted|].
    intros e He. apply case_keys_In, in_map. exact He.
Qed.

Lemma forecast_outputs_case_totals_witness :
  let cs := [mk_fcase "A" "base" 10%Z 100 (1 / 100) 0;
             mk_fcase "B" "high" 12%Z 80 (1 / 50) (1 / 2)] in
  let eurs := [mk_eur_row "B" "high" 12%Z (round2 (eur_from_profile []));
               mk_eur_row "A" "base" 10%Z (round2 (eur_from_profile []))] in
  let o := mk_outputs eurs (total_eur eurs) [] [] in
  forecast_outputs cs ["high"%string; "base"%string] 5%Z 10 = Rendered o /\
  ((forall l, In l (map fst (per_case_total o)) <-> In l ["high"%string; "base"%string]) /\
   Sorted slt (map fst (per_case_total o)) /\
   NoDup (map fst (per_case_total o)) /\
   sumR (map snd (per_case_total o)) = sumR (map e_eur (per_well_eur o))).
Proof.
  cbv zeta.
  assert (Hfo : forecast_outputs
                  [mk_fcase "A" "base" 10%Z 100 (1 / 100) 0;
                   mk_fcase "B" "high" 12%Z 80 (1 / 50) (1 / 2)]
                  ["high"%string; "base"%string] 5%Z 10
                = Rendered (mk_outputs
                    [mk_eur_row "B" "high" 12%Z (round2 (eur_from_profile []));
                     mk_eur_row "A" "base" 10%Z (round2 (eur_from_profile []))]
                    (total_eur
                       [mk_eur_row "B" "high" 12%Z (round2 (eur_from_profile []));
                        mk_eur_row "A" "base" 10%Z (round2 (eur_from_profile []))])
                    [] [])) by reflexivity.
  split; [exact Hfo|]. exact (forecast_outputs_case_totals _ _ _ _ _ Hfo).
Defined.

(** ** The plots of [_render_plots] *)

Lemma group_cumsum_fst (seen : list (string * R)) (rows : list sum_row) :
  map fst (group_cumsum_from seen rows) = rows.
Proof.
  revert seen. induction rows as [|s rows IH]; intros seen; simpl; [reflexivity|].
  rewrite IH. reflexivity.
Qed.

Lemma label_block_raw_sum (cases : list fcase) (end_date : date) (q : R) (l : string)
    e1 r1 s1 :
  label_block cases end_date q l = Some (e1, r1, s1) ->
  forall r, In r r1 ->
  exists s, In s s1 /\ s_label s = r_label r /\ s_date s = r_date r.
Proof.
  intros H r Hr. unfold label_block in H.
  destruct (label_cases cases l) as [|c0 cs] eqn:Hl; [discriminate|].
  rewrite <- Hl in H. injection H as _ Hr1 Hs1. subst r1 s1.
  apply in_flat_map in Hr as [c [Hc Hr]]. apply in_map_iff in Hr as [p [<- Hp]].
  assert (Hd : In (p_date p) (map fst (label_series cases l end_date q))).
  { unfold label_series. rewrite groupby_date_sum_keys, group_keys_In.
    unfold label_samples. apply in_map_iff.
    exists (p_date p, p_rate p). split; [reflexivity|].
    apply in_flat_map. exists c. split; [exact Hc|].
    unfold rate_samples. apply in_map_iff. exists p. split; [reflexivity | exact Hp]. }
  apply in_map_iff in Hd as [dr [Hdr Hin]].
  exists (mk_sum_row (fst dr) (snd dr) l (well_name c0)). simpl.
  split; [|split; [reflexivity | exact Hdr]].
  apply in_map_iff. exists dr. split; [reflexivity | exact Hin].
Qed.

Lemma label_blocks_raw_sum (cases : list fcase) (end_date : date) (q : R)
    (labels : list string) es rs ss :
  label_blocks cases end_date q labels = Some (es, rs, ss) ->
  forall r, In r rs ->
  exists s, In s ss /\ s_label s = r_label r /\ s_date s = r_date r.
Proof.
  revert es rs ss. induction labels as [|l labels IH]; intros es rs ss H r Hr.
  - simpl in H. injection H as _ <- _. destruct Hr.
  - cbn [label_blocks] in H.
    destruct (label_block cases end_date q l) as [[[e1 r1] s1]|] eqn:Hb; [|discriminate].
    destruct (label_blocks cases end_date q labels) as [[[e2 r2] s2]|] eqn:Hr2;
      [|discriminate].
    injection H as _ <- <-. apply in_app_iff in Hr as [Hr|Hr].
    + destruct (label_block_raw_sum _ _ _ _ _ _ _ Hb r Hr) as [s [Hs Heq]].
      exists s. split; [apply in_app_iff; left; exact Hs | exact Heq].
    + destruct (IH _ _ _ eq_refl r Hr) as [s [Hs Heq]].
      exists s. split; [apply in_app_iff; right; exact Hs | exact Heq].
Qed.

(** Every well annotation of the two line charts finds its point: for each
    raw profile row there is a row of the summed series with the same case
    label and date, so [sub.loc[sub.Date == first_dt, ...].iloc[0]] never
    meets an empty selection. *)
Theorem render_annotation_found (cases : list fcase) (labels : list string)
    (end_date : date) (q : R) (o : outputs) :
  forecast_outputs cases labels end_date q = Rendered o ->
  forall r, In r (raw_series o) ->
  exists sc, In sc (summed_series o) /\
             s_label (fst sc) = r_label r /\ s_date (fst sc) = r_date r.
Proof.
  unfold forecast_outputs. intros H. destruct labels as [|l0 ls]; [discriminate|].
  destruct (label_blocks cases end_date q (l0 :: ls)) as [[[es rs] ss]|] eqn:Hb;
    [|discriminate].
  destruct (keys_distinct (map pivot_key ss)) eqn:Hk; [|discriminate].
  injection H as <-. cbn [raw_series summed_series]. intros r Hr.
  destruct (label_blocks_raw_sum _ _ _ _ _ _ _ Hb r Hr) as [s [Hs Heq]].
  assert (Hs' : In s (map fst (group_cumsum ss)))
    by (unfold group_cumsum; rewrite group_cumsum_fst; exact Hs).
  apply in_map_iff in Hs' as [sc [<- Hsc]]. exists sc. split; [exact Hsc | exact Heq].
Qed.

Lemma render_annotation_found_witness :
  List.length (raw_series example_outputs) = 6%nat /\
  (forecast_outputs example_cases ["base"%string] 4%Z 0 = Rendered example_outputs /\
   forall r, In r (raw_series example_outputs) ->
   exists sc, In sc (summed_series example_outputs) /\
              s_label (fst sc) = r_label r /\ s_date (fst sc) = r_date r).
Proof.
  split; [reflexivity|]. split; [exact forecast_example|].
  exact (render_annotation_found _ _ _ _ _ forecast_example).
Defined.

(** ** Case insertion *)

Lemma lstrip_chars_suffix (l : ustr) : exists pre, l = pre ++ lstrip_chars l.
Proof.
  induction l as [|a l IH]; simpl; [exists []; reflexivity|].
  destruct (is_space a).
  - destruct IH as [pre Hpre]. exists (a :: pre). simpl. rewrite <- Hpre. reflexivity.
  - exists []. reflexivity.
Qed.

Lemma lstrip_chars_head (l : ustr) :
  lstrip_chars l = [] \/ exists a r, lstrip_chars l = a :: r /\ is_space a = false.
Proof.
  induction l as [|a l IH]; simpl; [left; reflexivity|].
  destruct (is_space a) eqn:E; [exact IH|]. right. exists a, l. split; [reflexivity | exact E].
Qed.

Lemma lstrip_chars_idem (l : ustr) : lstrip_chars (lstrip_chars l) = lstrip_chars l.
Proof.
  destruct (lstrip_chars_head l) as [->|[a [r [-> Ha]]]]; [reflexivity|].
  simpl. rewrite Ha. reflexivity.
Qed.

Lemma strip_idem (s : ustr) : strip (strip s) = strip s.
Proof.
  unfold strip.
  set (A := lstrip_chars s).
  set (B := lstrip_chars (rev A)).
  assert (HB : lstrip_chars (rev B) = rev B).
  { destruct (lstrip_chars_suffix (rev A)) as [pre Hpre]. fold B in Hpre.
    assert (HA : A = rev B ++ rev pre)
      by (rewrite <- rev_app_distr, <- Hpre, rev_involutive; reflexivity).
    destruct (rev B) as [|c t] eqn:Hr; [reflexivity|].
    destruct (lstrip_chars_head s) as [H0|[a [r [H1 Ha]]]].
    - fold A in H0. rewrite HA in H0. discriminate.
    - fold A in H1. rewrite HA in H1. injection H1 as -> _. simpl. rewrite Ha. reflexivity. }
  rewrite HB, rev_involutive. unfold B at 1. rewrite lstrip_chars_idem. reflexivity.
Qed.

Lemma is_empty_false (s : ustr) : is_empty s = false -> s <> [].
Proof. destruct s; simpl; congruence. Qed.

Lemma prepared_length (rows : list full_row) :
  (List.length (prepared rows) <= List.length rows)%nat.
Proof.
  induction rows as [|[[[[[w l] d] q] dd] bb] rows IH]; simpl; [lia|].
  destruct (is_empty (strip w) || is_empty (strip l)); simpl; lia.
Qed.

Lemma dropna_required_length (es : list entry) :
  (List.length (dropna_required es) <= List.length es)%nat.
Proof.
  induction es as [|e es IH]; simpl; [lia|].
  destruct e as [[w|] [l|] [d|] [q|] [dd|] [bb|]]; simpl; lia.
Qed.

(** [insert_cases], when it returns, has only appended to the table, one
    row per counted insert; the counted and the reported rows together are
    never more than the rows of the edited table; every appended row has a
    non-empty well name and case label that are already stripped of
    surrounding whitespace. *)
Theorem insert_cases_appends_clean {E : Type}
    (execute : list db_tuple -> db_tuple -> option E)
    (commit : list db_tuple -> commit_result)
    (table : list db_tuple) (es : list entry) (T' : list db_tuple) (n : nat) (errs : list E) :
  insert_cases E execute commit table es = InsertDone T' n errs ->
  (n + List.length errs <= List.length es)%nat /\
  exists added, T' = table ++ added /\ List.length added = n /\
    (forall w l d q dd bb, In (w, l, d, q, dd, bb) added ->
       w <> [] /\ l <> [] /\ strip w = w /\ strip l = l).
Proof.
  intros H. unfold insert_cases in H.
  destruct (insert_loop_run execute (dropna_required es) table 0 [])
    as (T1 & n1 & errs1 & Hr & Hl).
  rewrite Hl in H. simpl in H.
  assert (Heq : T1 = T' /\ n1 = n /\ errs1 = errs)
    by (destruct (commit T1); [injection H as -> -> -> | injection H as -> -> -> | discriminate];
        repeat split).
  destruct Heq as [<- [<- <-]].
  destruct (db_run_shape _ _ _ _ _ _ Hr) as (added & -> & Hlen & Hn & Hi).
  split.
  - pose proof (prepared_length (dropna_required es)).
    pose proof (dropna_required_length es). lia.
  - exists added. split; [reflexivity | split; [exact Hlen|]].
    intros w l d q dd bb Hin. apply Hi, prepared_In in Hin
      as (w' & l' & d' & q' & dd' & bb' & _ & Hw & Hl' & Heq).
    injection Heq as -> -> _ _ _ _.
    split; [apply is_empty_false; exact Hw|].
    split; [apply is_empty_false; exact Hl'|].
    split; apply strip_idem.
Qed.

Lemma insert_cases_appends_clean_witness :
  insert_cases Empty_set (fun _ _ => None) (fun _ => Committed) [] example_batch
    = InsertDone [example_tuple "W1"; example_tuple "W3"; example_tuple "W4"] 3 [] /\
  ((3 + List.length (@nil Empty_set) <= List.length example_batch)%nat /\
   exists added, [example_tuple "W1"; example_tuple "W3"; example_tuple "W4"] = [] ++ added /\
     List.length added = 3%nat /\
     (forall w l d q dd bb, In (w, l, d, q, dd, bb) added ->
        w <> [] /\ l <> [] /\ strip w = w /\ strip l = l)).
Proof.
  assert (H : insert_cases Empty_set (fun _ _ => None) (fun _ => Committed) [] example_batch
              = InsertDone [example_tuple "W1"; example_tuple "W3"; example_tuple "W4"] 3 [])
    by reflexivity.
  split; [exact H|]. exact (insert_cases_appends_clean _ _ _ _ _ _ _ H).
Defined.







(** ** Provenance of the raw profile rows *)

Lemma make_profile_row_bounds (s e : date) (qi di b q : R) (r : prow) :
  In r (make_profile s e qi di b q) -> (s <= p_date r <= e)%Z /\ q <= p_rate r.
Proof.
  intros Hr.
  assert (H : In (p_date r, p_rate r) (rate_samples (make_profile s e qi di b q)))
    by (unfold rate_samples; apply in_map_iff; exists r; split; [reflexivity | exact Hr]).
  rewrite make_profile_samples in H. unfold drop_abandoned in H.
  apply filter_In in H as [Hin Hk]. simpl in Hk.
  apply negb_true_iff, below_false in Hk. split; [|exact Hk].
  apply (in_map fst) in Hin. rewrite raw_samples_dates in Hin.
  apply In_date_range. exact Hin.
Qed.

Lemma label_blocks_raw_rows (cases : list fcase) (end_date : date) (q : R)
    (labels : list string) es rs ss :
  label_blocks cases end_date q labels = Some (es, rs, ss) ->
  forall r, In r rs ->
  exists c p, In c cases /\ In (case_label c) labels /\ In p (case_profile end_date q c) /\
    r = mk_raw_row (p_date p) (p_rate p) (p_cum p) (case_label c) (well_name c).
Proof.
  revert es rs ss. induction labels as [|l labels IH]; intros es rs ss H r Hr.
  - simpl in H. injection H as _ <- _. destruct Hr.
  - cbn [label_blocks] in H.
    destruct (label_block cases end_date q l) as [[[e1 r1] s1]|] eqn:Hb; [|discriminate].
    destruct (label_blocks cases end_date q labels) as [[[e2 r2] s2]|] eqn:Hr2;
      [|discriminate].
    injection H as _ <- _. apply in_app_iff in Hr as [Hr|Hr].
    + unfold label_block in Hb.
      destruct (label_cases cases l) as [|c0 cs] eqn:Hl; [discriminate|].
      rewrite <- Hl in Hb. injection Hb as _ Hr1 _. subst r1.
      apply in_flat_map in Hr as [c [Hc Hr]]. apply in_map_iff in Hr as [p [<- Hp]].
      unfold label_cases in Hc. apply filter_In in Hc as [Hc Hcl].
      apply String.eqb_eq in Hcl. exists c, p.
      split; [exact Hc|]. split; [left; symmetry; exact Hcl|].
      split; [exact Hp|]. rewrite Hcl. reflexivity.
    + destruct (IH _ _ _ eq_refl r Hr) as (c & p & Hc & Hcl & Hp & ->).
      exists c, p. split; [exact Hc|]. split; [right; exact Hcl|]. split; [exact Hp|].
      reflexivity.
Qed.

(** Each row of the raw per-well series belongs to a selected case: it
    carries that case's label and well name, its date lies between the
    case's effective date and the end date, and its rate is at least the
    abandonment rate. *)
Theorem raw_series_provenance (cases : list fcase) (labels : list string)
    (end_date : date) (q : R) (o : outputs) :
  forecast_outputs cases labels end_date q = Rendered o ->
  forall r, In r (raw_series o) ->
  exists c, In c cases /\ In (case_label c) labels /\
    r_label r = case_label c /\ r_well r = well_name c /\
    (eff_date c <= r_date r <= end_date)%Z /\ q <= r_rate r.
Proof.
  unfold forecast_outputs. intros H. destruct labels as [|l0 ls]; [discriminate|].
  destruct (label_blocks cases end_date q (l0 :: ls)) as [[[es rs] ss]|] eqn:Hb;
    [|discriminate].
  destruct (keys_distinct (map pivot_key ss)) eqn:Hk; [|discriminate].
  injection H as <-. cbn [raw_series]. intros r Hr.
  destruct (label_blocks_raw_rows _ _ _ _ _ _ _ Hb r Hr) as (c & p & Hc & Hcl & Hp & ->).
  destruct (make_profile_row_bounds _ _ _ _ _ _ _ Hp) as [Hd Hq].
  exists c. simpl. repeat (split; [assumption || reflexivity|]). exact Hq.
Qed.

Lemma raw_series_provenance_witness :
  List.length (raw_series example_outputs) = 6%nat /\
  (forecast_outputs example_cases ["base"%string] 4%Z 0 = Rendered example_outputs /\
   forall r, In r (raw_series example_outputs) ->
   exists c, In c example_cases /\ In (case_label c) ["base"%string] /\
     r_label r = case_label c /\ r_well r = well_name c /\
     (eff_date c <= r_date r <= 4)%Z /\ 0 <= r_rate r).
Proof.
  split; [reflexivity|]. split; [exact forecast_example|].
  exact (raw_series_provenance _ _ _ _ _ forecast_example).
Defined.
